(** * Trickster cache index and named-lock manager

    A shallow embedding of the cache [Index] (package [cache]) and of the
    named-lock registry (package [locks]), with the properties of the
    design document stated over it.

    Conventions of the embedding:
    - an [int64] is a [Z], every arithmetic result is passed through
      [Int64.wrap];
    - a [time.Time] is the instant it denotes, a [Z] count of nanoseconds
      since the Unix epoch ([Before] is [<]);
    - a Go [map[string]*Object] is an [option (gmap string Object)]:
      [None] is the nil map (reads behave as on the empty map, a write
      panics);
    - the order in which Go ranges over a map and the result of
      [sort.Sort] are not fixed by the language: both are parameters. *)

From Stdlib Require Import ZArith Lia List Permutation.
From Stdlib Require Import Strings.Byte.
From stdpp Require Import base numbers option list strings gmap sorting.

Local Open Scope Z_scope.

(** ** 64-bit signed integers *)
Module Int64.

Definition modulus : Z := 2 ^ 64.
Definition min_signed : Z := - 2 ^ 63.
Definition max_signed : Z := 2 ^ 63 - 1.

(** Two's complement wrap-around of Go's [int64] arithmetic. *)
Definition wrap (z : Z) : Z := (z + 2 ^ 63) mod modulus - 2 ^ 63.

Definition in_range (z : Z) : Prop := min_signed <= z <= max_signed.

Definition add (a b : Z) : Z := wrap (a + b).
Definition sub (a b : Z) : Z := wrap (a - b).

End Int64.

(** ** The cache index (package cache) *)

(** [time.Time], as the instant it denotes. *)
Definition Time : Type := Z.

(** The zero value of [time.Time], January 1 of the year 1, 00:00:00 UTC:
    62135596800 seconds before the Unix epoch. *)
Definition zeroTime : Time := - 62135596800 * 10 ^ 9.

(** [t.Before(u)] *)
Definition Before (t u : Time) : bool := t <? u.

(** [const IndexKey = "cache.index"] *)
Definition IndexKey : string := "cache.index".

(** [type Object struct] *)
Record Object : Type := mkObject {
  Key : string;
  Expiration : Time;
  LastWrite : Time;
  LastAccess : Time;
  Size : Z;
  Value : list byte
}.

(** The fields of [config.CacheIndexConfig] that the index reads. *)
Record CacheIndexConfig : Type := mkConfig {
  ReapIntervalSecs : Z;
  FlushIntervalSecs : Z;
  MaxSizeBytes : Z;
  MaxSizeBackoffBytes : Z;
  MaxSizeObjects : Z;
  MaxSizeBackoffObjects : Z
}.

(** [type Index struct]. The two callbacks are not stored in the record:
    the functions that call them take them as arguments. *)
Record Index : Type := mkIndex {
  CacheSize : Z;
  ObjectCount : Z;
  Objects : option (gmap string Object);
  name : string;
  config : CacheIndexConfig;
  reapInterval : Z;
  flushInterval : Z
}.

#[global] Instance byte_eq_dec : EqDecision byte.
Proof. intros a b. destruct (Byte.byte_eq_dec a b); [left | right]; done. Defined.
#[global] Instance Object_eq_dec : EqDecision Object.
Proof. solve_decision. Defined.
#[global] Instance CacheIndexConfig_eq_dec : EqDecision CacheIndexConfig.
Proof. solve_decision. Defined.

(** Result of a call that can panic. *)
Inductive Result (A : Type) : Type :=
  | Ok (a : A)
  | Panic (msg : string).
Arguments Ok {A} a.
Arguments Panic {A} msg.

(** Reading a Go map: a nil map reads as the empty map. *)
Definition entries (idx : Index) : gmap string Object :=
  default ∅ (Objects idx).

Definition with_counters (idx : Index) (cs oc : Z) : Index :=
  mkIndex cs oc (Objects idx) (name idx) (config idx)
          (reapInterval idx) (flushInterval idx).

Definition with_objects (idx : Index) (m : option (gmap string Object)) : Index :=
  mkIndex (CacheSize idx) (ObjectCount idx) m (name idx) (config idx)
          (reapInterval idx) (flushInterval idx).

(** [&Index{}] *)
Definition zeroConfig : CacheIndexConfig := mkConfig 0 0 0 0 0 0.
Definition zeroIndex : Index := mkIndex 0 0 None "" zeroConfig 0 0.

(** [func (idx *Index) UpdateObjectAccessTime(key string)] *)
Definition UpdateObjectAccessTime (now : Time) (key : string) (idx : Index) : Index :=
  match entries idx !! key with
  | Some o =>
      with_objects idx
        (Some (<[key := mkObject (Key o) (Expiration o) (LastWrite o) now
                                  (Size o) (Value o)]> (entries idx)))
  | None => idx
  end.

(** [func (idx *Index) UpdateObject(obj Object)]. [now] is the reading of
    [time.Now()]. The assignment [idx.Objects[key] = &obj] panics on a nil
    map. *)
Definition UpdateObject (now : Time) (obj : Object) (idx : Index) : Result Index :=
  let key := Key obj in
  if decide (key = "") then Ok idx
  else
    let obj1 := mkObject (Key obj) (Expiration obj) now now
                         (Z.of_nat (length (Value obj))) [] in
    let idx1 :=
      match entries idx !! key with
      | Some o =>
          with_counters idx
            (Int64.add (CacheSize idx)
               (Int64.sub (Size o)
                  (match entries idx !! key with
                   | Some o' => Size o'
                   | None => 0
                   end)))
            (ObjectCount idx)
      | None =>
          with_counters idx
            (Int64.add (CacheSize idx) (Size obj1))
            (Int64.add (ObjectCount idx) 1)
      end in
    match Objects idx1 with
    | Some m => Ok (with_objects idx1 (Some (<[key := obj1]> m)))
    | None => Panic "assignment to entry in nil map"
    end.

(** [func (idx *Index) RemoveObject(key string, noLock bool)]. [delete] on
    a nil map is a no-op, and a nil map has no entry to find. *)
Definition RemoveObject (key : string) (noLock : bool) (idx : Index) : Index :=
  match entries idx !! key with
  | Some o =>
      with_objects
        (with_counters idx (Int64.sub (CacheSize idx) (Size o))
                       (Int64.sub (ObjectCount idx) 1))
        (delete key <$> Objects idx)
  | None => idx
  end.

(** *** One reap cycle *)

(** The injected [bulkRemoveFunc]: it receives the keys and the
    lock-already-held flag, and may change the index it closes over. *)
Definition BulkRemoveFunc : Type := list string → bool → Index → Index.

(** The order in which a [range] over the [Objects] map visits its
    entries. *)
Definition RangeOrder : Type := gmap string Object → list (string * Object).

(** [sort.Sort] on an [obectsAtime]. *)
Definition SortFunc : Type := list Object → list Object.

(** [func (o obectsAtime) Less(i, j int) bool], on the two elements. *)
Definition Less (a b : Object) : bool := Before (LastAccess a) (LastAccess b).

(** Body of [for _, o := range idx.Objects { ... }] in [reap]: the
    accumulator is [(removals, remainders)]. *)
Definition partition_step (now : Time) (acc : list string * list Object)
    (o : Object) : list string * list Object :=
  if decide (Key o = IndexKey) then acc
  else if Before (Expiration o) now then (acc.1 ++ [Key o], acc.2)
  else (acc.1, acc.2 ++ [o]).

Definition partition_entries (now : Time) (ents : list Object)
    : list string * list Object :=
  foldl (partition_step now) ([], []) ents.

Inductive EvictionType : Type := size_bytes | size_objects.

(** The guard of the eviction block. *)
Definition over_limit (idx : Index) (remainders : list Object) : bool :=
  ((0 <? MaxSizeBytes (config idx)) && (MaxSizeBytes (config idx) <? CacheSize idx)
   || (0 <? MaxSizeObjects (config idx))
      && (MaxSizeObjects (config idx) <? ObjectCount idx))
  && (0 <? Z.of_nat (length remainders)).

(** The choice of [evictionType]; [None] is the bare [return]. *)
Definition evictionType (idx : Index) : option EvictionType :=
  if MaxSizeBytes (config idx) <? CacheSize idx then Some size_bytes
  else if MaxSizeObjects (config idx) <? ObjectCount idx then Some size_objects
  else None.

(** [bytesNeeded], with the backoff added. *)
Definition bytesNeeded (idx : Index) : Z :=
  let n := Int64.sub (CacheSize idx) (MaxSizeBytes (config idx)) in
  if MaxSizeBackoffBytes (config idx) <? MaxSizeBytes (config idx)
  then Int64.add n (MaxSizeBackoffBytes (config idx))
  else n.

(** [objectsNeeded], with the backoff added. *)
Definition objectsNeeded (idx : Index) : Z :=
  let n := Int64.sub (ObjectCount idx) (MaxSizeObjects (config idx)) in
  if MaxSizeBackoffObjects (config idx) <? MaxSizeObjects (config idx)
  then Int64.add n (MaxSizeBackoffObjects (config idx))
  else n.

(** [for bytesSelected < bytesNeeded && i < j { ... }]: [rest] is
    [remainders[i:]]. *)
Fixpoint select_bytes (needed selected : Z) (rest : list Object)
    (removals : list string) : list string :=
  match rest with
  | [] => removals
  | o :: rest' =>
      if selected <? needed
      then select_bytes needed (Int64.add selected (Size o)) rest'
                        (removals ++ [Key o])
      else removals
  end.

(** [for objectsSelected < objectsNeeded && i < j { ... }] *)
Fixpoint select_objects (needed selected : Z) (rest : list Object)
    (removals : list string) : list string :=
  match rest with
  | [] => removals
  | o :: rest' =>
      if selected <? needed
      then select_objects needed (Int64.add selected 1) rest'
                          (removals ++ [Key o])
      else removals
  end.

(** The keys chosen by the eviction block, for an index [idx] as the
    expiry phase left it; [[]] when the block is not entered or returns
    early. *)
Definition eviction_removals (sort : SortFunc) (idx : Index)
    (remainders : list Object) : list string :=
  if over_limit idx remainders then
    match evictionType idx with
    | None => []
    | Some size_bytes => select_bytes (bytesNeeded idx) 0 (sort remainders) []
    | Some size_objects => select_objects (objectsNeeded idx) 0 (sort remainders) []
    end
  else [].

(** [if len(removals) > 0 { idx.bulkRemoveFunc(removals, true) }]: the
    index afterwards and the calls made. *)
Definition bulk_remove (f : BulkRemoveFunc) (removals : list string)
    (idx : Index) : Index * list (list string * bool) :=
  match removals with
  | [] => (idx, [])
  | _ :: _ => (f removals true idx, [(removals, true)])
  end.

(** The index as the expiry phase of [reap] leaves it. *)
Definition after_expiry (order : RangeOrder) (f : BulkRemoveFunc)
    (now : Time) (idx : Index) : Index :=
  (bulk_remove f (partition_entries now (order (entries idx)).*2).1 idx).1.

(** [func (idx *Index) reap()], once its two slices are made: the index
    afterwards and the calls made to the bulk-removal callback, in order.
    The allocation of [remainders], which can panic, is [make_remainders]
    below, and [reap_call] is the function from its first statement. *)
Definition reap (order : RangeOrder) (sort : SortFunc) (f : BulkRemoveFunc)
    (now : Time) (idx : Index) : Index * list (list string * bool) :=
  let '(removals, remainders) :=
    partition_entries now (order (entries idx)).*2 in
  let '(idx1, calls1) := bulk_remove f removals idx in
  let '(idx2, calls2) :=
    bulk_remove f (eviction_removals sort idx1 remainders) idx1 in
  (idx2, calls1 ++ calls2).

(** The keys handed to the callback in the expiry phase. *)
Definition reap_expired (order : RangeOrder) (now : Time) (idx : Index)
    : list string :=
  (partition_entries now (order (entries idx)).*2).1.

(** The entries that survive the expiry phase. *)
Definition reap_remainders (order : RangeOrder) (now : Time) (idx : Index)
    : list Object :=
  (partition_entries now (order (entries idx)).*2).2.

(** The keys handed to the callback in the eviction phase. *)
Definition reap_evicted (order : RangeOrder) (sort : SortFunc)
    (f : BulkRemoveFunc) (now : Time) (idx : Index) : list string :=
  eviction_removals sort (after_expiry order f now idx)
                    (reap_remainders order now idx).

(** A bulk-removal callback as the owning cache supplies it: it removes
    each key from the index, passing the flag on as [noLock]. *)
Definition removeEach : BulkRemoveFunc :=
  fun keys noLock idx => foldl (fun i k => RemoveObject k noLock i) idx keys.

(** The order that [sort.Sort] establishes between an element and the
    elements after it: the later one is not [Less] than the earlier. *)
Definition atime_le (a b : Object) : Prop := Less b a = false.
#[global] Instance atime_le_dec : RelDecision atime_le.
Proof. intros a b. unfold atime_le. apply _. Defined.

(** A range order and a sort that compute: the entries in the order of
    [map_to_list], and merge sort. *)
Definition listOrder : RangeOrder := map_to_list.
Definition atimeSort : SortFunc := merge_sort atime_le.

(** *** Sequences of index operations *)

Inductive Op : Type :=
  | OpUpdate (now : Time) (obj : Object)
  | OpRemove (key : string) (noLock : bool).

Definition apply_op (op : Op) (idx : Index) : Result Index :=
  match op with
  | OpUpdate now obj => UpdateObject now obj idx
  | OpRemove key noLock => Ok (RemoveObject key noLock idx)
  end.

Fixpoint apply_ops (ops : list Op) (idx : Index) : Result Index :=
  match ops with
  | [] => Ok idx
  | op :: ops' =>
      match apply_op op idx with
      | Ok idx' => apply_ops ops' idx'
      | Panic msg => Panic msg
      end
  end.

(** [Σ Objects[k].Size] and [|Objects|], as mathematical integers. *)
Definition total_size (m : gmap string Object) : Z :=
  map_fold (fun _ o acc => Size o + acc) 0 m.

Definition invariant (idx : Index) : Prop :=
  CacheSize idx = total_size (entries idx)
  ∧ ObjectCount idx = Z.of_nat (size (entries idx)).

(** The count half alone, read in [int64]. *)
Definition count_ok (idx : Index) : Prop :=
  ObjectCount idx = Int64.wrap (Z.of_nat (size (entries idx))).

(** ** Serialization of the index *)

(** Modelled from the spec: [MarshalMsg] and [UnmarshalMsg] of [Index] and
    [Object] are produced by the code generator named in the
    [go:generate] line and are not part of the source tree. The spec only
    says that the index serializes to an opaque blob from which
    [CacheSize], [ObjectCount] and [Objects] are restored. The model below
    is a MessagePack layout: a struct is a map from field names to values,
    every value is written in the widest of its formats (int64, str32,
    bin32, map32, a 12-byte time extension), and the decoder assigns each
    field to the receiver as soon as it has read it. A field name that the
    struct does not have and a nil map value are reported as errors. *)
Module Msgp.

Inductive error : Type :=
  | ErrShortBytes
  | ErrUnknownField (field : string).

Definition byte_of_Z (z : Z) : byte :=
  default x00 (Byte.of_N (Z.to_N (z mod 256))).
Definition Z_of_byte (b : byte) : Z := Z.of_N (Byte.to_N b).

(** The [n] low bytes of [z], least significant first. *)
Fixpoint le_bytes (n : nat) (z : Z) : list byte :=
  match n with
  | O => []
  | S n' => byte_of_Z z :: le_bytes n' (z / 256)
  end.

(** Big-endian: the [n] low bytes of [z], most significant first. *)
Definition be_bytes (n : nat) (z : Z) : list byte := rev (le_bytes n z).
Definition be_value (bs : list byte) : Z :=
  foldl (fun acc b => acc * 256 + Z_of_byte b) 0 bs.

Definition Parser (A : Type) : Type := list byte → option (A * list byte).

Definition take_bytes (n : nat) : Parser (list byte) := fun bts =>
  if decide (n ≤ length bts)%nat then Some (take n bts, drop n bts) else None.

Definition expect (b : byte) : Parser unit := fun bts =>
  match bts with
  | b' :: r => if decide (b' = b) then Some ((), r) else None
  | [] => None
  end.

Definition read_uint (n : nat) : Parser Z := fun bts =>
  '(bs, r) ← take_bytes n bts; Some (be_value bs, r).

Definition wrap32 (z : Z) : Z := (z + 2 ^ 31) mod 2 ^ 32 - 2 ^ 31.

Definition AppendInt64 (i : Z) : list byte := xd3 :: be_bytes 8 i.
Definition ReadInt64Bytes : Parser Z := fun bts =>
  '(_, r) ← expect xd3 bts;
  '(u, r) ← read_uint 8 r;
  Some (Int64.wrap u, r).

Definition AppendString (s : string) : list byte :=
  let bs := String.list_byte_of_string s in
  xdb :: be_bytes 4 (Z.of_nat (length bs)) ++ bs.
Definition ReadStringBytes : Parser string := fun bts =>
  '(_, r) ← expect xdb bts;
  '(n, r) ← read_uint 4 r;
  '(bs, r) ← take_bytes (Z.to_nat n) r;
  Some (String.string_of_list_byte bs, r).

Definition AppendBytes (bs : list byte) : list byte :=
  xc6 :: be_bytes 4 (Z.of_nat (length bs)) ++ bs.
Definition ReadBytesBytes : Parser (list byte) := fun bts =>
  '(_, r) ← expect xc6 bts;
  '(n, r) ← read_uint 4 r;
  take_bytes (Z.to_nat n) r.

Definition AppendMapHeader (n : nat) : list byte :=
  xdf :: be_bytes 4 (Z.of_nat n).
Definition ReadMapHeaderBytes : Parser nat := fun bts =>
  '(_, r) ← expect xdf bts;
  '(n, r) ← read_uint 4 r;
  Some (Z.to_nat n, r).

(** A time is written as its Unix seconds (int64) and the nanoseconds
    within the second (int32). *)
Definition AppendTime (t : Time) : list byte :=
  xc7 :: x0c :: x05 :: be_bytes 8 (t / 10 ^ 9) ++ be_bytes 4 (t mod 10 ^ 9).
Definition ReadTimeBytes : Parser Time := fun bts =>
  '(_, r) ← expect xc7 bts;
  '(_, r) ← expect x0c r;
  '(_, r) ← expect x05 r;
  '(sec, r) ← read_uint 8 r;
  '(nsec, r) ← read_uint 4 r;
  Some (Int64.wrap sec * 10 ^ 9 + wrap32 nsec, r).

(** Modelled from the spec: [func (z *Object) MarshalMsg], generated code
    that is not in the source tree; the fields under the names of their
    [msg] tags. *)
Definition Object_MarshalMsg (z : Object) : list byte :=
  AppendMapHeader 6
  ++ AppendString "key" ++ AppendString (Key z)
  ++ AppendString "expiration" ++ AppendTime (Expiration z)
  ++ AppendString "lastwrite" ++ AppendTime (LastWrite z)
  ++ AppendString "lastaccess" ++ AppendTime (LastAccess z)
  ++ AppendString "size" ++ AppendInt64 (Size z)
  ++ AppendString "value" ++ AppendBytes (Value z).

(** One case of the field switch of [Object.UnmarshalMsg]. *)
Definition Object_field (field : string) (z : Object)
    : list byte → option (Object * list byte) + error := fun bts =>
  if decide (field = "key") then
    inl ('(v, r) ← ReadStringBytes bts;
         Some (mkObject v (Expiration z) (LastWrite z) (LastAccess z)
                        (Size z) (Value z), r))
  else if decide (field = "expiration") then
    inl ('(v, r) ← ReadTimeBytes bts;
         Some (mkObject (Key z) v (LastWrite z) (LastAccess z)
                        (Size z) (Value z), r))
  else if decide (field = "lastwrite") then
    inl ('(v, r) ← ReadTimeBytes bts;
         Some (mkObject (Key z) (Expiration z) v (LastAccess z)
                        (Size z) (Value z), r))
  else if decide (field = "lastaccess") then
    inl ('(v, r) ← ReadTimeBytes bts;
         Some (mkObject (Key z) (Expiration z) (LastWrite z) v
                        (Size z) (Value z), r))
  else if decide (field = "size") then
    inl ('(v, r) ← ReadInt64Bytes bts;
         Some (mkObject (Key z) (Expiration z) (LastWrite z) (LastAccess z)
                        v (Value z), r))
  else if decide (field = "value") then
    inl ('(v, r) ← ReadBytesBytes bts;
         Some (mkObject (Key z) (Expiration z) (LastWrite z) (LastAccess z)
                        (Size z) v, r))
  else inr (ErrUnknownField field).

(** The field loop of [Object.UnmarshalMsg], [n] fields to go: the
    receiver as far as it was filled, the bytes left, the error. *)
Fixpoint Object_fields (n : nat) (z : Object) (bts : list byte)
    : Object * list byte * option error :=
  match n with
  | O => (z, bts, None)
  | S n' =>
      match ReadStringBytes bts with
      | None => (z, bts, Some ErrShortBytes)
      | Some (field, r) =>
          match Object_field field z r with
          | inl (Some (z', r')) => Object_fields n' z' r'
          | inl None => (z, r, Some ErrShortBytes)
          | inr e => (z, r, Some e)
          end
      end
  end.

(** Modelled from the spec: [func (z *Object) UnmarshalMsg], generated
    code that is not in the source tree. *)
Definition Object_UnmarshalMsg (z : Object) (bts : list byte)
    : Object * list byte * option error :=
  match ReadMapHeaderBytes bts with
  | None => (z, bts, Some ErrShortBytes)
  | Some (n, r) => Object_fields n z r
  end.

(** [&Object{}]: every field at the zero value of its type. *)
Definition zeroObject : Object :=
  mkObject "" zeroTime zeroTime zeroTime 0 [].

Definition Objects_body (kv : string * Object) : list byte :=
  AppendString kv.1 ++ Object_MarshalMsg kv.2.

(** Modelled from the spec: [func (z *Index) MarshalMsg], generated code
    that is not in the source tree, for the order [order] in which the
    [Objects] map is ranged over. It writes the three fields that the spec
    names as restored: [CacheSize], [ObjectCount] and [Objects]. *)
Definition Index_MarshalMsg (order : RangeOrder) (z : Index)
    : list byte * option error :=
  (AppendMapHeader 3
   ++ AppendString "CacheSize" ++ AppendInt64 (CacheSize z)
   ++ AppendString "ObjectCount" ++ AppendInt64 (ObjectCount z)
   ++ AppendString "Objects"
   ++ AppendMapHeader (length (order (entries z)))
   ++ concat (Objects_body <$> order (entries z)),
   None).

(** The loop over the entries of [Objects], [n] entries to go. *)
Fixpoint Objects_entries (n : nat) (m : gmap string Object)
    (bts : list byte) : gmap string Object * list byte * option error :=
  match n with
  | O => (m, bts, None)
  | S n' =>
      match ReadStringBytes bts with
      | None => (m, bts, Some ErrShortBytes)
      | Some (k, r) =>
          match Object_UnmarshalMsg zeroObject r with
          | (o, r', None) => Objects_entries n' (<[k := o]> m) r'
          | (_, r', Some e) => (m, r', Some e)
          end
      end
  end.

(** One case of the field switch of [Index.UnmarshalMsg]. *)
Definition Index_field (field : string) (z : Index) (bts : list byte)
    : Index * list byte * option error :=
  if decide (field = "CacheSize") then
    match ReadInt64Bytes bts with
    | Some (v, r) => (with_counters z v (ObjectCount z), r, None)
    | None => (z, bts, Some ErrShortBytes)
    end
  else if decide (field = "ObjectCount") then
    match ReadInt64Bytes bts with
    | Some (v, r) => (with_counters z (CacheSize z) v, r, None)
    | None => (z, bts, Some ErrShortBytes)
    end
  else if decide (field = "Objects") then
    match ReadMapHeaderBytes bts with
    | Some (n, r) =>
        let '(m, r', e) := Objects_entries n ∅ r in
        (with_objects z (Some m), r', e)
    | None => (z, bts, Some ErrShortBytes)
    end
  else (z, bts, Some (ErrUnknownField field)).

Fixpoint Index_fields (n : nat) (z : Index) (bts : list byte)
    : Index * list byte * option error :=
  match n with
  | O => (z, bts, None)
  | S n' =>
      match ReadStringBytes bts with
      | None => (z, bts, Some ErrShortBytes)
      | Some (field, r) =>
          match Index_field field z r with
          | (z', r', None) => Index_fields n' z' r'
          | (z', r', Some e) => (z', r', Some e)
          end
      end
  end.

(** Modelled from the spec: [func (z *Index) UnmarshalMsg], generated code
    that is not in the source tree. *)
Definition Index_UnmarshalMsg (z : Index) (bts : list byte)
    : Index * list byte * option error :=
  match ReadMapHeaderBytes bts with
  | None => (z, bts, Some ErrShortBytes)
  | Some (n, r) => Index_fields n z r
  end.

End Msgp.

(** The decoder that [NewIndex] and [IndexFromBytes] call: from the
    receiver and the bytes to the receiver as the call leaves it, the bytes
    left over and the error. *)
Definition Unmarshaler : Type :=
  Index → list byte → Index * list byte * option Msgp.error.
Definition Marshaler : Type := Index → list byte * option Msgp.error.

(** [func (idx *Index) ToBytes() []byte] *)
Definition ToBytes (MarshalMsg : Marshaler) (idx : Index) : list byte :=
  (MarshalMsg idx).1.

(** [func IndexFromBytes(data []byte)], returning the index and the
    error. *)
Definition IndexFromBytes (UnmarshalMsg : Unmarshaler) (data : list byte)
    : Index * option Msgp.error :=
  let '(i, _, err) := UnmarshalMsg zeroIndex data in (i, err).

(** [time.Second], in nanoseconds. *)
Definition Second : Z := 1000000000.

(** [func NewIndex(name, indexData, config, bulkRemoveFunc, flushFunc)
    *Index]. The value returned is the index alone; the error of
    [UnmarshalMsg] is dropped at the call. *)
Definition NewIndex (UnmarshalMsg : Unmarshaler) (name : string)
    (indexData : list byte) (config : CacheIndexConfig) : Index :=
  let i := zeroIndex in
  let i :=
    if (0 <? length indexData)%nat
    then (UnmarshalMsg i indexData).1.1
    else with_objects i (Some ∅) in
  mkIndex (CacheSize i) (ObjectCount i) (Objects i) name config
          (Int64.wrap (Int64.wrap (ReapIntervalSecs config) * Second))
          (Int64.wrap (Int64.wrap (FlushIntervalSecs config) * Second)).

(** Whether [NewIndex] starts the flusher and the reaper. *)
Definition flusher_starts (i : Index) (hasFlushFunc : bool) : bool :=
  (0 <? flushInterval i) && hasFlushFunc.
Definition reaper_starts (i : Index) : bool := 0 <? reapInterval i.

(** ** The named-lock manager (package locks) *)
Module Locks.

(** A [*sync.Mutex] is the address of the mutex. *)
Definition mutex : Type := nat.

(** The package state: the registry [locks], whether [mapLock] is held,
    the set of mutexes that are locked, and the next unused address. *)
Record State : Type := mkState {
  locks : gmap string mutex;
  mapLock : bool;
  locked : gset mutex;
  next : mutex
}.

(** [var locks = make(map[string]*sync.Mutex)], [var mapLock = sync.Mutex{}] *)
Definition init : State := mkState ∅ false ∅ 0%nat.

(** [func Release(lockName string)], run without interruption from a
    state in which [mapLock] is free. [Unlock] of a mutex that is not
    locked is a fatal error of the Go runtime. *)
Definition Release (lockName : string) (s : State) : Result State :=
  match locks s !! lockName with
  | Some l =>
      if decide (l ∈ locked s)
      then Ok (mkState (delete lockName (locks s)) (mapLock s)
                       (locked s ∖ {[l]}) (next s))
      else Panic "sync: unlock of unlocked mutex"
  | None => Ok s
  end.

(** [func Acquire(lockName string) *sync.Mutex], run without
    interruption: the mutex returned and the state afterwards, or [None]
    when the call has to wait, at [mapLock.Lock()] because [mapLock] is
    held or at [l.Lock()] because the mutex of the name is locked. The
    second [mapLock.Lock()] finds [mapLock] as the first [Unlock] left
    it. *)
Definition Acquire (lockName : string) (s : State) : option (mutex * State) :=
  if mapLock s then None
  else
    let '(l, s1) :=
      match locks s !! lockName with
      | Some l => (l, s)
      | None => (next s, mkState (locks s) (mapLock s) (locked s) (S (next s)))
      end in
    if decide (l ∈ locked s1) then None
    else Some (l, mkState (<[lockName := l]> (locks s1)) (mapLock s1)
                          ({[l]} ∪ locked s1) (next s1)).

(** *** Interleaved execution

    Every statement of [Acquire] and [Release] that touches shared
    state is one atomic step of the calling goroutine. *)

Inductive Call : Type :=
  | CallAcquire (lockName : string)
  | CallRelease (lockName : string).

(** Where a goroutine stands; each point is named after the statement
    it is about to execute. *)
Inductive PC : Type :=
  | Idle
  | AcqMapLock1 (lockName : string)
  | AcqLookup (lockName : string)
  | AcqMapUnlock1 (lockName : string) (l : mutex)
  | AcqLock (lockName : string) (l : mutex)
  | AcqMapLock2 (lockName : string) (l : mutex)
  | AcqStore (lockName : string) (l : mutex)
  | AcqMapUnlock2 (lockName : string) (l : mutex)
  | RelMapLock (lockName : string)
  | RelBody (lockName : string)
  | RelMapUnlock (lockName : string).

(** A goroutine: its program point, the calls it has still to make, and
    the names for which its [Acquire] has returned and its [Release] has
    not yet been called. *)
Record Thread : Type := mkThread {
  pc : PC;
  todo : list Call;
  holds : list string
}.

Record World : Type := mkWorld {
  shared : State;
  threads : list Thread
}.

Inductive Outcome : Type :=
  | Stepped (s : State) (th : Thread)
  | Blocked
  | Finished
  | Fatal.

Definition set_locks (s : State) (m : gmap string mutex) : State :=
  mkState m (mapLock s) (locked s) (next s).
Definition set_mapLock (s : State) (b : bool) : State :=
  mkState (locks s) b (locked s) (next s).
Definition set_locked (s : State) (ls : gset mutex) : State :=
  mkState (locks s) (mapLock s) ls (next s).
Definition goto (th : Thread) (p : PC) : Thread :=
  mkThread p (todo th) (holds th).

(** One step of one goroutine. *)
Definition step_thread (s : State) (th : Thread) : Outcome :=
  match pc th with
  | Idle =>
      match todo th with
      | [] => Finished
      | CallAcquire n :: rest =>
          Stepped s (mkThread (AcqMapLock1 n) rest (holds th))
      | CallRelease n :: rest =>
          Stepped s (mkThread (RelMapLock n) rest
                              (filter (fun n' => n' ≠ n) (holds th)))
      end
  | AcqMapLock1 n =>
      if mapLock s then Blocked
      else Stepped (set_mapLock s true) (goto th (AcqLookup n))
  | AcqLookup n =>
      match locks s !! n with
      | Some l => Stepped s (goto th (AcqMapUnlock1 n l))
      | None =>
          Stepped (mkState (locks s) (mapLock s) (locked s) (S (next s)))
                  (goto th (AcqMapUnlock1 n (next s)))
      end
  | AcqMapUnlock1 n l =>
      if mapLock s then Stepped (set_mapLock s false) (goto th (AcqLock n l))
      else Fatal
  | AcqLock n l =>
      if decide (l ∈ locked s) then Blocked
      else Stepped (set_locked s ({[l]} ∪ locked s)) (goto th (AcqMapLock2 n l))
  | AcqMapLock2 n l =>
      if mapLock s then Blocked
      else Stepped (set_mapLock s true) (goto th (AcqStore n l))
  | AcqStore n l =>
      Stepped (set_locks s (<[n := l]> (locks s))) (goto th (AcqMapUnlock2 n l))
  | AcqMapUnlock2 n l =>
      if mapLock s
      then Stepped (set_mapLock s false)
                   (mkThread Idle (todo th) (n :: holds th))
      else Fatal
  | RelMapLock n =>
      if mapLock s then Blocked
      else Stepped (set_mapLock s true) (goto th (RelBody n))
  | RelBody n =>
      match Release n s with
      | Ok s' => Stepped s' (goto th (RelMapUnlock n))
      | Panic _ => Fatal
      end
  | RelMapUnlock n =>
      if mapLock s then Stepped (set_mapLock s false) (goto th Idle)
      else Fatal
  end.

(** Goroutine [t] takes one step; [None] when it cannot (it is blocked,
    has finished, does not exist, or the runtime stops the program). *)
Definition step (t : nat) (w : World) : option World :=
  th ← threads w !! t;
  match step_thread (shared w) th with
  | Stepped s' th' => Some (mkWorld s' (<[t := th']> (threads w)))
  | _ => None
  end.

(** A schedule: the goroutine that moves at each step. *)
Fixpoint run (sched : list nat) (w : World) : option World :=
  match sched with
  | [] => Some w
  | t :: sched' => w' ← step t w; run sched' w'
  end.

(** Goroutine [t] is a holder of the lock named [n]. *)
Definition holder (w : World) (t : nat) (n : string) : Prop :=
  ∃ th, threads w !! t = Some th ∧ n ∈ holds th.

(** A world of goroutines that have not started yet. *)
Definition spawn (progs : list (list Call)) : World :=
  mkWorld init ((fun p => mkThread Idle p []) <$> progs).

(** The property of the design: at most one holder per name. *)
Definition mutual_exclusion (w : World) : Prop :=
  ∀ t1 t2 n, holder w t1 n → holder w t2 n → t1 = t2.

(** *** Invariants of the interleaved execution *)

(** The name and the mutex that a goroutine carries in its local
    variables [lockName] and [l]. *)
Definition pc_mutex (p : PC) : option (string * mutex) :=
  match p with
  | AcqMapUnlock1 n l | AcqLock n l | AcqMapLock2 n l | AcqStore n l
  | AcqMapUnlock2 n l => Some (n, l)
  | _ => None
  end.

(** The name of the call that a goroutine is executing. *)
Definition pc_name (p : PC) : option string :=
  match p with
  | Idle => None
  | AcqMapLock1 n | AcqLookup n | AcqMapUnlock1 n _ | AcqLock n _
  | AcqMapLock2 n _ | AcqStore n _ | AcqMapUnlock2 n _
  | RelMapLock n | RelBody n | RelMapUnlock n => Some n
  end.

(** The mutex that a goroutine has locked and not yet registered. *)
Definition pc_owns (p : PC) : option mutex :=
  match p with
  | AcqMapLock2 _ l | AcqStore _ l => Some l
  | _ => None
  end.

(** The mutex [l] is in use for the name [n]: it is registered under
    [n], or a goroutine calling [Acquire(n)] carries it. *)
Definition uses (w : World) (n : string) (l : mutex) : Prop :=
  locks (shared w) !! n = Some l
  ∨ ∃ t th, threads w !! t = Some th ∧ pc_mutex (pc th) = Some (n, l).

Record inv (w : World) : Prop := mkInv {
  (** a registered mutex is locked *)
  inv_locked : ∀ n l, locks (shared w) !! n = Some l → l ∈ locked (shared w);
  (** a mutex serves one name *)
  inv_name : ∀ n n' l, uses w n l → uses w n' l → n = n';
  (** the addresses in use have been allocated *)
  inv_next : ∀ n l, uses w n l → (l < next (shared w))%nat;
  (** a mutex that a goroutine has locked and not yet registered is
      locked, is in no entry of the registry, and no other goroutine is
      in that position with it *)
  inv_owns : ∀ t th l,
    threads w !! t = Some th → pc_owns (pc th) = Some l →
    l ∈ locked (shared w)
    ∧ (∀ n, locks (shared w) !! n ≠ Some l)
    ∧ (∀ t' th', threads w !! t' = Some th' → pc_owns (pc th') = Some l →
         t' = t)
}.

(** The worlds that some schedule reaches from goroutines that have not
    started. *)
Definition reachable (w : World) : Prop :=
  ∃ progs sched, run sched (spawn progs) = Some w.

(** Two goroutines that each acquire and release the name "k". *)
Definition two_callers : World :=
  spawn [[CallAcquire "k"; CallRelease "k"];
         [CallAcquire "k"; CallRelease "k"]].

(** Both look the name up before either has registered its mutex. *)
Definition race_schedule : list nat :=
  [0; 0; 0; 0; 1; 1; 1; 1; 0; 0; 0; 0; 1; 1; 1; 1]%nat.

(** The first goroutine completes [Acquire] before the second looks the
    name up. *)
Definition queue_schedule : list nat :=
  [0; 0; 0; 0; 0; 0; 0; 0; 1; 1; 1; 1]%nat.

(** The four steps of a [Release] call and the eight steps of an
    [Acquire] call. *)
Definition release_schedule (t : nat) : list nat := [t; t; t; t].
Definition acquire_schedule (t : nat) : list nat := [t; t; t; t; t; t; t; t].

(** A registry with the name "k" registered and its mutex locked. *)
Definition one_held : State := mkState {["k" := 0%nat]} false {[0%nat]} 1%nat.

End Locks.


(** ** Concrete inputs used by the examples below *)
Module Examples.

(** The decoder of the model. *)
Definition decode : Unmarshaler := Msgp.Index_UnmarshalMsg.

(** [NewIndex] without persisted bytes. *)
Definition fresh (cfg : CacheIndexConfig) : Index :=
  NewIndex decode "cache" [] cfg.

(** An object with key [k], expiring at [exp], carrying [n] payload
    bytes. *)
Definition payload (k : string) (exp : Time) (n : nat) : Object :=
  mkObject k exp 0 0 0 (replicate n x00).

(** A write of one byte under "a", then a write of two bytes under the
    same key. *)
Definition overwrite : list Op :=
  [OpUpdate 1 (payload "a" 100 1); OpUpdate 2 (payload "a" 100 2)].

(** The index after the listed operations; a panic yields the zero
    index. *)
Definition built (ops : list Op) (cfg : CacheIndexConfig) : Index :=
  match apply_ops ops (fresh cfg) with
  | Ok idx => idx
  | Panic _ => zeroIndex
  end.

(** The entry that [UpdateObject] stores at time [t] for [n] payload
    bytes under key [k], expiring at 1000. *)
Definition stored (k : string) (t : Time) (n : nat) : Object :=
  mkObject k 1000 t t (Z.of_nat n) [].

(** The hysteresis scenario: a limit of 100 bytes with a backoff of 20,
    and five entries of 30 bytes written at times 1 to 5. *)
Definition lru_config : CacheIndexConfig := mkConfig 0 0 100 20 0 0.
Definition lru_index : Index :=
  built [OpUpdate 1 (payload "E1" 1000 30); OpUpdate 2 (payload "E2" 1000 30);
         OpUpdate 3 (payload "E3" 1000 30); OpUpdate 4 (payload "E4" 1000 30);
         OpUpdate 5 (payload "E5" 1000 30)] lru_config.
Definition lru_entries : list Object :=
  [stored "E1" 1 30; stored "E2" 2 30; stored "E3" 3 30; stored "E4" 4 30;
   stored "E5" 5 30].

(** The count scenario: no byte limit, a limit of 3 objects without
    backoff, and four entries of 10 bytes written at times 1 to 4. *)
Definition count_config : CacheIndexConfig := mkConfig 0 0 0 0 3 0.
Definition count_index : Index :=
  built [OpUpdate 1 (payload "E1" 1000 10); OpUpdate 2 (payload "E2" 1000 10);
         OpUpdate 3 (payload "E3" 1000 10); OpUpdate 4 (payload "E4" 1000 10)]
        count_config.

(** The same entries under a byte limit that they do not reach. *)
Definition roomy_config : CacheIndexConfig := mkConfig 0 0 1000 0 3 0.
Definition roomy_index : Index :=
  built [OpUpdate 1 (payload "E1" 1000 10); OpUpdate 2 (payload "E2" 1000 10);
         OpUpdate 3 (payload "E3" 1000 10); OpUpdate 4 (payload "E4" 1000 10)]
        roomy_config.

(** The expiry scenario: A expired at 499, B expires at 4000, and the
    index's own snapshot is stored under the reserved key with an
    expiration of 0; the reap runs at 500. *)
Definition ttl_index : Index :=
  built [OpUpdate 1 (payload "A" 499 1); OpUpdate 2 (payload "B" 4000 1);
         OpUpdate 3 (payload IndexKey 0 7)] zeroConfig.

(** A decoder that leaves the receiver as [decode] does and reports no
    error. *)
Definition silent : Unmarshaler :=
  fun z data => ((decode z data).1, None).

(** Bytes that are no snapshot, the snapshot without fields, and a
    snapshot that breaks off after the header of its [Objects] map. *)
Definition garbage : list byte := [xc1].
Definition no_fields : list byte := Msgp.AppendMapHeader 0.
Definition cut_short : list byte :=
  Msgp.AppendMapHeader 1 ++ Msgp.AppendString "Objects"
  ++ Msgp.AppendMapHeader 1.

End Examples.


(** ** What the language guarantees about the parameters of [reap] *)

(** A [range] visits every entry of the map once, in some order. *)
Definition range_ok (order : RangeOrder) : Prop :=
  ∀ m, order m ≡ₚ map_to_list m.

(** [sort.Sort] permutes the slice so that no element is [Less] than an
    element before it. *)
Definition sort_ok (sort : SortFunc) : Prop :=
  ∀ l, sort l ≡ₚ l ∧ StronglySorted atime_le (sort l).

(** The values of the map, in the order of [map_to_list]. *)
Definition objects_of (idx : Index) : list Object :=
  (map_to_list (entries idx)).*2.

(** An entry that the expiry phase removes, and one that it keeps for the
    eviction phase; the entry whose key is the reserved one is neither. *)
Definition expired (now : Time) (o : Object) : Prop :=
  Key o ≠ IndexKey ∧ Expiration o < now.
Definition live (now : Time) (o : Object) : Prop :=
  Key o ≠ IndexKey ∧ ¬ Expiration o < now.

#[global] Instance expired_dec now o : Decision (expired now o).
Proof. unfold expired. apply _. Defined.
#[global] Instance live_dec now o : Decision (live now o).
Proof. unfold live. apply _. Defined.




(** ** What a byte snapshot can hold *)

(** The lengths and numbers that the layout has room for: 32-bit lengths,
    64-bit integers, and times whose Unix seconds fit an [int64]. *)
Definition fits_len (n : nat) : Prop := Z.of_nat n < 2 ^ 32.

Definition fits_time (t : Time) : Prop := Int64.in_range (t / 10 ^ 9).

Definition fits_object (o : Object) : Prop :=
  fits_len (length (String.list_byte_of_string (Key o)))
  ∧ fits_time (Expiration o) ∧ fits_time (LastWrite o)
  ∧ fits_time (LastAccess o)
  ∧ Int64.in_range (Size o)
  ∧ fits_len (length (Value o)).

Definition fits_index (idx : Index) : Prop :=
  Int64.in_range (CacheSize idx)
  ∧ Int64.in_range (ObjectCount idx)
  ∧ fits_len (size (entries idx))
  ∧ ∀ k o, entries idx !! k = Some o →
      fits_len (length (String.list_byte_of_string k)) ∧ fits_object o.

(** [z.Objects[k] = v], for an entry given as a pair. *)
Definition put (m : gmap string Object) (kv : string * Object)
  : gmap string Object := <[kv.1 := kv.2]> m.

#[global] Instance fits_len_dec n : Decision (fits_len n).
Proof. unfold fits_len. apply _. Defined.
#[global] Instance fits_time_dec t : Decision (fits_time t).
Proof. unfold fits_time, Int64.in_range. apply _. Defined.
#[global] Instance in_range_dec z : Decision (Int64.in_range z).
Proof. unfold Int64.in_range. apply _. Defined.
#[global] Instance fits_object_dec o : Decision (fits_object o).
Proof. unfold fits_object. apply _. Defined.

(** The entries of a map, one by one. *)
Definition fits_entry (kv : string * Object) : Prop :=
  fits_len (length (String.list_byte_of_string kv.1)) ∧ fits_object kv.2.
#[global] Instance fits_entry_dec kv : Decision (fits_entry kv).
Proof. unfold fits_entry. apply _. Defined.

(** The caller of [NewIndex] can tell from the value returned whether the
    deserialization failed. *)
Definition surfaces_failure (UnmarshalMsg : Unmarshaler) : Prop :=
  ∃ failed : Index → bool,
    ∀ name data cfg, data ≠ [] →
      failed (NewIndex UnmarshalMsg name data cfg) = true
      ↔ (UnmarshalMsg zeroIndex data).2 ≠ None.

(** Whenever the deserialization of non-empty bytes fails, [NewIndex]
    returns an index with a nil [Objects] map, and the next [UpdateObject]
    with a non-empty key panics on the write. *)
Definition failure_leaves_nil_map (UnmarshalMsg : Unmarshaler) : Prop :=
  ∀ name data cfg now obj,
    data ≠ [] → (UnmarshalMsg zeroIndex data).2 ≠ None → Key obj ≠ "" →
    Objects (NewIndex UnmarshalMsg name data cfg) = None
    ∧ UpdateObject now obj (NewIndex UnmarshalMsg name data cfg)
      = Panic "assignment to entry in nil map".


(** ** The remaining operations of the index *)

(** The generated codec of [Object], as the wrappers below call it. *)
Definition ObjectMarshaler : Type := Object → list byte * option Msgp.error.
Definition ObjectUnmarshaler : Type :=
  Object → list byte → Object * list byte * option Msgp.error.

(** [func (o *Object) ToBytes() []byte]: the error of [MarshalMsg] is
    dropped. *)
Definition Object_ToBytes (MarshalMsg : ObjectMarshaler) (o : Object)
    : list byte :=
  (MarshalMsg o).1.

(** [func ObjectFromBytes(data []byte)], returning the object and the
    error. *)
Definition ObjectFromBytes (UnmarshalMsg : ObjectUnmarshaler)
    (data : list byte) : Object * option Msgp.error :=
  let '(o, _, err) := UnmarshalMsg Msgp.zeroObject data in (o, err).

(** The codec of the model, in the shape of the generated methods. *)
Definition Object_encode : ObjectMarshaler :=
  fun o => (Msgp.Object_MarshalMsg o, None).
Definition Object_decode : ObjectUnmarshaler := Msgp.Object_UnmarshalMsg.

(** One turn of the loop of [flusher], after the sleep: the arguments of
    the call to [flushFunc], or [None] when [MarshalMsg] fails (the
    failure is logged and the loop continues). The index is only read. *)
Definition flusher_turn (MarshalMsg : Marshaler) (idx : Index)
    : option (string * list byte) :=
  match MarshalMsg idx with
  | (bytes, None) => Some (IndexKey, bytes)
  | (_, Some _) => None
  end.

(** [func (o obectsAtime) Len() int] *)
Definition Len (o : list Object) : nat := length o.

(** [func (o obectsAtime) Less(i, j int) bool], on the indices; an index
    out of range panics. *)
Definition LessAt (i j : nat) (o : list Object) : Result bool :=
  match o !! i, o !! j with
  | Some a, Some b => Ok (Less a b)
  | _, _ => Panic "index out of range"
  end.

(** [func (o obectsAtime) Swap(i, j int)]: [o[i], o[j] = o[j], o[i]]. *)
Definition Swap (i j : nat) (o : list Object) : Result (list Object) :=
  match o !! i, o !! j with
  | Some a, Some b => Ok (<[j := a]> (<[i := b]> o))
  | _, _ => Panic "index out of range"
  end.

(** The calls that change an index, the reap cycle among them. *)
Inductive IndexCall : Type :=
  | DoUpdate (now : Time) (obj : Object)
  | DoTouch (now : Time) (key : string)
  | DoRemove (key : string) (noLock : bool)
  | DoReap (now : Time).

(** One call, with [reap] handing its keys to a callback that removes
    them from the index ([removeEach]). *)
Definition do_call (order : RangeOrder) (sort : SortFunc) (c : IndexCall)
    (idx : Index) : Result Index :=
  match c with
  | DoUpdate now obj => UpdateObject now obj idx
  | DoTouch now key => Ok (UpdateObjectAccessTime now key idx)
  | DoRemove key noLock => Ok (RemoveObject key noLock idx)
  | DoReap now => Ok (reap order sort removeEach now idx).1
  end.

Fixpoint do_calls (order : RangeOrder) (sort : SortFunc)
    (cs : list IndexCall) (idx : Index) : Result Index :=
  match cs with
  | [] => Ok idx
  | c :: cs' =>
      match do_call order sort c idx with
      | Ok idx' => do_calls order sort cs' idx'
      | Panic msg => Panic msg
      end
  end.

(** What every stored entry looks like: it sits under its own key, the
    key is not empty, the payload is gone and the size is not negative. *)
Definition stored_ok (idx : Index) : Prop :=
  ∀ k o, entries idx !! k = Some o →
    Key o = k ∧ k ≠ "" ∧ Value o = [] ∧ 0 ≤ Size o.

(** [CacheSize] is the sum of the stored sizes, read in [int64]. *)
Definition size_ok (idx : Index) : Prop :=
  CacheSize idx = Int64.wrap (total_size (entries idx)).

(** A write that keeps the size of what is stored under its key: the key
    is new, or the payload is as long as the stored size says. *)
Definition same_size_write (obj : Object) (idx : Index) : Prop :=
  match entries idx !! Key obj with
  | None => True
  | Some o => Size o = Z.of_nat (length (Value obj))
  end.

(** Every write of the sequence is one that keeps the size. *)
Fixpoint same_size_writes (order : RangeOrder) (sort : SortFunc)
    (cs : list IndexCall) (idx : Index) : Prop :=
  match cs with
  | [] => True
  | c :: cs' =>
      match c with
      | DoUpdate _ obj => same_size_write obj idx
      | _ => True
      end
      ∧ match do_call order sort c idx with
        | Ok idx' => same_size_writes order sort cs' idx'
        | Panic _ => True
        end
  end.


(** The entries of the map are keyed when each sits under its own
    [Key]. *)
Definition keyed (idx : Index) : Prop :=
  ∀ k o, entries idx !! k = Some o → Key o = k.

(** ** The discipline of [mapLock] *)
Section LockPredicates.

Import Locks.

(** The statements of [Acquire] and [Release] that run with [mapLock]
    held. *)
Definition in_critical (p : PC) : bool :=
  match p with
  | AcqLookup _ | AcqMapUnlock1 _ _ | AcqStore _ _ | AcqMapUnlock2 _ _
  | RelBody _ | RelMapUnlock _ => true
  | _ => false
  end.

(** [mapLock] is held exactly while a goroutine is between its
    [mapLock.Lock()] and its [mapLock.Unlock()], and by one goroutine at
    most. *)
Definition crit_ok (w : World) : Prop :=
  (mapLock (shared w) = true
   ↔ ∃ t th, threads w !! t = Some th ∧ in_critical (pc th) = true)
  ∧ (∀ t t' th th',
       threads w !! t = Some th → threads w !! t' = Some th' →
       in_critical (pc th) = true → in_critical (pc th') = true → t = t').

(** The mutexes that are locked have been allocated. *)
Definition alloc_ok (w : World) : Prop :=
  ∀ l, l ∈ locked (shared w) → (l < next (shared w))%nat.

(** The world that a schedule reaches; the starting world when the
    schedule cannot be run. *)
Definition after (sched : list nat) (w : World) : World :=
  default w (run sched w).

Definition queued : World := after queue_schedule two_callers.
Definition in_section : World := after [0; 0]%nat two_callers.

(** A goroutine for "a" that has returned from [Acquire], and one for "b"
    that is about to lock its mutex. *)
Definition two_names : World :=
  after [0; 0; 0; 0; 0; 0; 0; 0; 1; 1; 1; 1]%nat
        (spawn [[CallAcquire "a"; CallRelease "a"];
                [CallAcquire "b"; CallRelease "b"]]).

End LockPredicates.

(** ** Further inputs for the examples *)

(** Writes, a touch, a write of the same size over "a", a removal of a
    key that is not there, a reap that finds "b" expired, and more. *)
Definition mixed_calls : list IndexCall :=
  [DoUpdate 1 (Examples.payload "a" 100 3);
   DoUpdate 2 (Examples.payload "b" 400 5);
   DoTouch 3 "a"; DoUpdate 4 (Examples.payload "a" 900 3);
   DoRemove "zz" false; DoReap 500;
   DoUpdate 600 (Examples.payload "c" 900 2);
   DoRemove "b" false].
Definition mixed_index : Index :=
  match do_calls listOrder atimeSort mixed_calls (Examples.fresh zeroConfig) with
  | Ok idx => idx
  | Panic _ => zeroIndex
  end.


(** ** The allocation at the head of [reap] *)

(** [remainders := make(obectsAtime, 0, idx.ObjectCount)]: the runtime
    panics when the capacity is negative or larger than the longest
    slice of pointers that it allocates, [maxCap] elements, a constant
    of the platform. *)
Definition make_remainders (maxCap : Z) (idx : Index) : Result unit :=
  if (0 <=? ObjectCount idx) && (ObjectCount idx <=? maxCap) then Ok tt
  else Panic "makeslice: cap out of range".

(** [func (idx *Index) reap()] from its first statement: the allocation,
    and then the cycle [reap]. *)
Definition reap_call (maxCap : Z) (order : RangeOrder) (sort : SortFunc)
    (f : BulkRemoveFunc) (now : Time) (idx : Index)
    : Result (Index * list (list string * bool)) :=
  match make_remainders maxCap idx with
  | Ok _ => Ok (reap order sort f now idx)
  | Panic msg => Panic msg
  end.

(** The calls of [do_call], with the reap cycle from its first
    statement. *)
Definition do_call_alloc (maxCap : Z) (order : RangeOrder) (sort : SortFunc)
    (c : IndexCall) (idx : Index) : Result Index :=
  match c with
  | DoReap now =>
      match reap_call maxCap order sort removeEach now idx with
      | Ok r => Ok r.1
      | Panic msg => Panic msg
      end
  | _ => do_call order sort c idx
  end.

Fixpoint do_calls_alloc (maxCap : Z) (order : RangeOrder) (sort : SortFunc)
    (cs : list IndexCall) (idx : Index) : Result Index :=
  match cs with
  | [] => Ok idx
  | c :: cs' =>
      match do_call_alloc maxCap order sort c idx with
      | Ok idx' => do_calls_alloc maxCap order sort cs' idx'
      | Panic msg => Panic msg
      end
  end.

(** A snapshot whose [ObjectCount] is negative, as an index read from
    persisted bytes can be. *)
Definition negative_count : Index :=
  mkIndex 0 (-1) (Some ∅) "cache" zeroConfig 0 0.

(** * Properties *)

(** ** Arithmetic of [int64] *)
Section Int64Lemmas.

Lemma wrap_in_range z : Int64.in_range z → Int64.wrap z = z.
Proof.
  unfold Int64.in_range, Int64.min_signed, Int64.max_signed, Int64.wrap,
    Int64.modulus.
  intros Hz. rewrite Z.mod_small; lia.
Qed.

Lemma wrap_range z : Int64.in_range (Int64.wrap z).
Proof.
  unfold Int64.in_range, Int64.min_signed, Int64.max_signed, Int64.wrap,
    Int64.modulus.
  pose proof (Z.mod_pos_bound (z + 2 ^ 63) (2 ^ 64)). lia.
Qed.

Lemma wrap_add_l a b : Int64.wrap (Int64.wrap a + b) = Int64.wrap (a + b).
Proof.
  unfold Int64.wrap, Int64.modulus. f_equal.
  replace ((a + 2 ^ 63) mod 2 ^ 64 - 2 ^ 63 + b + 2 ^ 63)
    with ((a + 2 ^ 63) mod 2 ^ 64 + b) by lia.
  rewrite Zplus_mod_idemp_l. f_equal. lia.
Qed.

Lemma wrap_idemp a : Int64.wrap (Int64.wrap a) = Int64.wrap a.
Proof. apply wrap_in_range, wrap_range. Qed.

End Int64Lemmas.

(** ** [UpdateObject] and [RemoveObject] *)
Section IndexLemmas.

Implicit Types (idx : Index) (obj o : Object) (key : string).

(** What [UpdateObject] does to an index whose map exists. *)
Lemma UpdateObject_Some now obj idx m :
  Key obj ≠ "" → Objects idx = Some m →
  UpdateObject now obj idx =
    Ok (mkIndex
          (match m !! Key obj with
           | Some o => Int64.add (CacheSize idx) (Int64.sub (Size o) (Size o))
           | None => Int64.add (CacheSize idx) (Z.of_nat (length (Value obj)))
           end)
          (match m !! Key obj with
           | Some _ => ObjectCount idx
           | None => Int64.add (ObjectCount idx) 1
           end)
          (Some (<[Key obj := mkObject (Key obj) (Expiration obj) now now
                                (Z.of_nat (length (Value obj))) []]> m))
          (name idx) (config idx) (reapInterval idx) (flushInterval idx)).
Proof.
  intros Hk Hm. unfold UpdateObject, entries. rewrite Hm. simpl.
  destruct (decide (Key obj = "")) as [|_]; [done|].
  destruct (m !! Key obj) as [o|]; simpl; by rewrite Hm.
Qed.

(** Writing to an existing key leaves both counters as they were: the
    amount added to [CacheSize] is the old size minus itself. *)
Lemma UpdateObject_existing now obj idx o :
  Key obj ≠ "" → entries idx !! Key obj = Some o →
  Int64.in_range (CacheSize idx) →
  ∃ idx', UpdateObject now obj idx = Ok idx'
    ∧ ObjectCount idx' = ObjectCount idx
    ∧ CacheSize idx' = CacheSize idx.
Proof.
  intros Hk Ho Hr. unfold entries in Ho.
  destruct (Objects idx) as [m|] eqn:Hm; simpl in Ho; [|done].
  rewrite (UpdateObject_Some now obj idx m Hk Hm), Ho.
  eexists; split; [done|]. simpl. split; [done|].
  unfold Int64.add, Int64.sub. rewrite Z.sub_diag.
  rewrite (wrap_in_range 0) by (unfold Int64.in_range; done).
  rewrite Z.add_0_r. by apply wrap_in_range.
Qed.

(** The nil map: a write with a non-empty key panics. *)
Lemma UpdateObject_nil now obj idx :
  Key obj ≠ "" → Objects idx = None →
  UpdateObject now obj idx = Panic "assignment to entry in nil map".
Proof.
  intros Hk Hm. unfold UpdateObject, entries. rewrite Hm. simpl.
  destruct (decide (Key obj = "")) as [|_]; [done|].
  rewrite lookup_empty. simpl. by rewrite Hm.
Qed.

Lemma UpdateObject_empty_key now obj idx :
  Key obj = "" → UpdateObject now obj idx = Ok idx.
Proof.
  intros Hk. unfold UpdateObject.
  by destruct (decide (Key obj = "")).
Qed.

(** An index whose map exists keeps it through every operation, so no
    operation panics. *)
Lemma apply_op_Some op idx m :
  Objects idx = Some m →
  ∃ idx' m', apply_op op idx = Ok idx' ∧ Objects idx' = Some m'.
Proof.
  intros Hm. destruct op as [now obj|key noLock]; simpl.
  - destruct (decide (Key obj = "")) as [Hk|Hk].
    + rewrite UpdateObject_empty_key by done. eauto.
    + rewrite (UpdateObject_Some now obj idx m Hk Hm). eauto.
  - unfold RemoveObject, entries. rewrite Hm. simpl.
    destruct (m !! key); simpl; rewrite ?Hm; eauto.
Qed.

Lemma apply_ops_Some ops : ∀ idx m,
  Objects idx = Some m →
  ∃ idx' m', apply_ops ops idx = Ok idx' ∧ Objects idx' = Some m'.
Proof.
  induction ops as [|op ops IH]; intros idx m Hm; simpl; [eauto|].
  destruct (apply_op_Some op idx m Hm) as (idx1 & m1 & -> & Hm1). eauto.
Qed.

(** The count half of the invariant does hold: after any sequence of
    operations on an index that starts empty, [ObjectCount] is the
    number of entries (as an [int64]). *)
Lemma apply_op_count_ok op idx idx' :
  count_ok idx → apply_op op idx = Ok idx' → count_ok idx'.
Proof.
  unfold count_ok. intros Hc Hop.
  destruct op as [now obj|key noLock]; simpl in Hop.
  - destruct (decide (Key obj = "")) as [Hk|Hk].
    { rewrite UpdateObject_empty_key in Hop by done. by simplify_eq. }
    destruct (Objects idx) as [m|] eqn:Hm.
    2: { by rewrite UpdateObject_nil in Hop. }
    rewrite (UpdateObject_Some now obj idx m Hk Hm) in Hop.
    simplify_eq. unfold entries in *. rewrite Hm in Hc. simpl in *.
    destruct (m !! Key obj) as [o|] eqn:Ho.
    + rewrite Hc. by rewrite map_size_insert_Some by eauto.
    + rewrite map_size_insert_None by done.
      rewrite Hc. unfold Int64.add. rewrite wrap_add_l. f_equal. lia.
  - unfold RemoveObject in Hop. simplify_eq.
    destruct (entries idx !! key) as [o|] eqn:Ho; [|done].
    unfold entries in *. destruct (Objects idx) as [m|] eqn:Hm; [|done].
    simpl in *. rewrite Hc. unfold Int64.sub.
    replace (Int64.wrap (Z.of_nat (size m)) - 1)
      with (Int64.wrap (Z.of_nat (size m)) + (-1)) by lia.
    rewrite wrap_add_l. f_equal.
    rewrite map_size_delete_Some by eauto.
    assert (size m ≠ 0%nat) by (apply map_size_ne_0_lookup_2 with key; eauto).
    lia.
Qed.

Lemma apply_ops_count_ok ops : ∀ idx idx',
  count_ok idx → apply_ops ops idx = Ok idx' → count_ok idx'.
Proof.
  induction ops as [|op ops IH]; intros idx idx' Hc Hops; simpl in Hops.
  - by simplify_eq.
  - destruct (apply_op op idx) as [idx1|] eqn:Hop; [|done].
    eauto using apply_op_count_ok.
Qed.

End IndexLemmas.

(** ** The counters of the index *)
Section Counters.

Import Examples.

(** C1: the design asks that after any sequence of [UpdateObject] and
    [RemoveObject] calls on an index that starts empty, [CacheSize] is
    the sum of the stored sizes and [ObjectCount] the number of
    entries. The code breaks the first half: writing one byte under a
    key and then two bytes under the same key leaves [CacheSize] at 1
    while the only stored entry has size 2. *)
Theorem overwrite_breaks_invariant :
  ∃ idx, apply_ops overwrite (fresh zeroConfig) = Ok idx
    ∧ CacheSize idx = 1
    ∧ total_size (entries idx) = 2
    ∧ ObjectCount idx = 1
    ∧ size (entries idx) = 1%nat
    ∧ ¬ invariant idx.
Proof.
  exists (mkIndex 1 1 (Some {["a" := mkObject "a" 100 2 2 2 []]})
                  "cache" zeroConfig 0 0).
  assert (Ht : total_size
    (entries (mkIndex 1 1
       (Some {["a" := mkObject "a" 100 2 2 2 []]}) "cache" zeroConfig 0 0)) = 2)
    by (vm_compute; reflexivity).
  split; [vm_compute; reflexivity|].
  split; [done|]. split; [exact Ht|]. split; [done|].
  split; [vm_compute; reflexivity|].
  intros [Hcs _]. rewrite Ht in Hcs. simpl in Hcs. lia.
Qed.

(** C2: the design asks that [UpdateObject] on an existing key changes
    [CacheSize] by the new size minus the old size. The code adds the
    old size minus itself: replacing a one-byte entry by a two-byte one
    leaves [CacheSize] at 1, where the design gives 1 + (2 - 1) = 2;
    [ObjectCount] stays at 1, as the design says. *)
Theorem overwrite_keeps_CacheSize :
  ∃ idx0 idx1 old,
    UpdateObject 1 (payload "a" 100 1) (fresh zeroConfig) = Ok idx0
    ∧ entries idx0 !! "a" = Some old ∧ Size old = 1
    ∧ UpdateObject 2 (payload "a" 100 2) idx0 = Ok idx1
    ∧ ObjectCount idx1 = ObjectCount idx0
    ∧ CacheSize idx1 = CacheSize idx0
    ∧ CacheSize idx1 ≠ CacheSize idx0 + (Z.of_nat (length (Value (payload "a" 100 2))) - Size old).
Proof.
  eexists _, _, _. split; [vm_compute; reflexivity|].
  split; [vm_compute; reflexivity|]. split; [done|].
  split; [vm_compute; reflexivity|]. split; [done|]. split; [done|].
  vm_compute. discriminate.
Qed.

End Counters.

(** ** The reap cycle *)
Section ReapLemmas.

Implicit Types (o : Object) (l rest ents : list Object)
  (acc removals : list string).

Lemma partition_foldl now ents : ∀ (a : list string * list Object),
  foldl (partition_step now) a ents =
    (a.1 ++ (Key <$> filter (expired now) ents),
     a.2 ++ filter (live now) ents).
Proof.
  induction ents as [|o ents IH]; intros [rm rs]; simpl.
  { by rewrite !app_nil_r. }
  rewrite IH. unfold partition_step. simpl.
  destruct (decide (Key o = IndexKey)) as [Hk|Hk].
  { rewrite !filter_cons_False by (unfold expired, live; tauto). done. }
  unfold Before. destruct (Z.ltb_spec (Expiration o) now) as [Hlt|Hge]; simpl.
  - rewrite filter_cons_True by done.
    rewrite filter_cons_False by (unfold live; lia).
    by rewrite fmap_cons, <-app_assoc.
  - rewrite filter_cons_False by (unfold expired; lia).
    rewrite filter_cons_True by (unfold live; split; [done|lia]).
    by rewrite <-app_assoc.
Qed.

(** The partition loop is two filters. *)
Lemma partition_entries_filter now ents :
  partition_entries now ents =
    (Key <$> filter (expired now) ents, filter (live now) ents).
Proof. unfold partition_entries. by rewrite partition_foldl. Qed.

Lemma reap_expired_perm order now idx :
  range_ok order →
  reap_expired order now idx ≡ₚ Key <$> filter (expired now) (objects_of idx).
Proof.
  intros Ho. unfold reap_expired, objects_of.
  rewrite partition_entries_filter. simpl. by rewrite (Ho (entries idx)).
Qed.

Lemma reap_remainders_perm order now idx :
  range_ok order →
  reap_remainders order now idx ≡ₚ filter (live now) (objects_of idx).
Proof.
  intros Ho. unfold reap_remainders, objects_of.
  rewrite partition_entries_filter. simpl. by rewrite (Ho (entries idx)).
Qed.


(** The object loop also selects a prefix. *)
Lemma select_objects_prefix needed : ∀ rest selected removals,
  ∃ n : nat,
    select_objects needed selected rest removals
      = removals ++ (Key <$> take n rest).
Proof.
  induction rest as [|o rest IH]; intros selected removals; simpl.
  { exists 0%nat. by rewrite app_nil_r. }
  destruct (selected <? needed).
  - destruct (IH (Int64.add selected 1) (removals ++ [Key o])) as [n Hn].
    exists (S n). by rewrite Hn, <-app_assoc.
  - exists 0%nat. by rewrite app_nil_r.
Qed.

Lemma select_bytes_sub needed : ∀ rest selected removals,
  ∃ n : nat,
    select_bytes needed selected rest removals
      = removals ++ (Key <$> take n rest).
Proof.
  induction rest as [|o rest IH]; intros selected removals; simpl.
  { exists 0%nat. by rewrite app_nil_r. }
  destruct (selected <? needed).
  - destruct (IH (Int64.add selected (Size o)) (removals ++ [Key o])) as [n Hn].
    exists (S n). by rewrite Hn, <-app_assoc.
  - exists 0%nat. by rewrite app_nil_r.
Qed.

(** Whatever the eviction block selects is the key of a remainder. *)
Lemma eviction_removals_sub sort idx l k :
  (∀ l', sort l' ≡ₚ l') →
  k ∈ eviction_removals sort idx l → ∃ o, o ∈ l ∧ Key o = k.
Proof.
  intros Hsort. unfold eviction_removals.
  destruct (over_limit idx l); [|by intros ?%elem_of_nil].
  destruct (evictionType idx) as [[]|]; [| |by intros ?%elem_of_nil].
  - destruct (select_bytes_sub (bytesNeeded idx) (sort l) 0 []) as [n ->].
    simpl. intros (o & -> & Ho)%list_elem_of_fmap.
    exists o. split; [|done].
    rewrite <-(Hsort l). by eapply subseteq_take.
  - destruct (select_objects_prefix (objectsNeeded idx) (sort l) 0 []) as [n ->].
    simpl. intros (o & -> & Ho)%list_elem_of_fmap.
    exists o. split; [|done].
    rewrite <-(Hsort l). by eapply subseteq_take.
Qed.



End ReapLemmas.

Section ReapExamples.

Import Examples.

(** Ascending [LastAccess], in the terms of [Less]. *)
Lemma atime_le_LastAccess a b : atime_le a b ↔ LastAccess a ≤ LastAccess b.
Proof. unfold atime_le, Less, Before. apply Z.ltb_ge. Qed.


Lemma lru_index_counters :
  CacheSize lru_index = 150 ∧ ObjectCount lru_index = 5
  ∧ config lru_index = lru_config.
Proof. by vm_compute. Qed.





End ReapExamples.

Section ReapProperties.

Import Examples.

#[local] Instance atime_le_trans : Transitive atime_le.
Proof. intros a b c. rewrite !atime_le_LastAccess. lia. Qed.
#[local] Instance atime_le_total : Total atime_le.
Proof. intros a b. rewrite !atime_le_LastAccess. lia. Qed.


Lemma atimeSort_ok : sort_ok atimeSort.
Proof.
  intros l. split.
  - apply merge_sort_Permutation.
  - apply StronglySorted_merge_sort; apply _.
Qed.






(** In the expiry scenario the callback is called once, with A: B has
    not expired, and the reserved key stays although its expiration has
    passed. *)
Example ttl_scenario :
  (reap listOrder atimeSort removeEach 500 ttl_index).2 = [(["A"], true)]
  ∧ dom (entries (reap listOrder atimeSort removeEach 500 ttl_index).1)
    = {["B"; IndexKey]}.
Proof. split; [by vm_compute|]. apply (bool_decide_unpack _). by vm_compute. Qed.

(** C5: the design asks that a byte limit of 0 or less disables
    byte-based eviction. The choice of the eviction type compares
    [CacheSize] with [MaxSizeBytes] without asking for a positive limit:
    with no byte limit, a limit of 3 objects and four 10-byte entries,
    the cycle is entered for the count, takes the byte branch with a
    quota of 40 bytes and evicts all four entries, where the count quota
    of 1 selects E1 alone. *)
Theorem count_pressure_takes_byte_quota :
  let remainders := reap_remainders listOrder 500 count_index in
  MaxSizeBytes (config count_index) = 0
  ∧ MaxSizeObjects (config count_index) = 3
  ∧ CacheSize count_index = 40
  ∧ ObjectCount count_index = 4
  ∧ over_limit count_index remainders = true
  ∧ evictionType count_index = Some size_bytes
  ∧ bytesNeeded count_index = 40
  ∧ objectsNeeded count_index = 1
  ∧ reap_evicted listOrder atimeSort removeEach 500 count_index
    = ["E1"; "E2"; "E3"; "E4"]
  ∧ select_objects (objectsNeeded count_index) 0 (atimeSort remainders) []
    = ["E1"].
Proof. by vm_compute. Qed.

(** The count branch is taken when [CacheSize] does not exceed
    [MaxSizeBytes]: under a byte limit of 1000 the same four entries lose
    E1 alone. *)
Example count_scenario_under_byte_limit :
  evictionType roomy_index = Some size_objects
  ∧ objectsNeeded roomy_index = 1
  ∧ reap_evicted listOrder atimeSort removeEach 500 roomy_index = ["E1"].
Proof. by vm_compute. Qed.

End ReapProperties.

(** ** The named-lock manager *)
Section LockProperties.

Import Locks.

(** C8: [Release] of a name that is not registered changes nothing;
    [Release] of a registered name removes its entry from the registry
    and unlocks the mutex that was registered, leaving the other
    entries and the other mutexes as they were. *)
Theorem Release_registered_or_not (lockName : string) (s : State) :
  (locks s !! lockName = None → Release lockName s = Ok s)
  ∧ (∀ l : mutex,
       locks s !! lockName = Some l → l ∈ locked s →
       ∃ s', Release lockName s = Ok s'
         ∧ locks s' = delete lockName (locks s)
         ∧ locks s' !! lockName = None
         ∧ (∀ n, n ≠ lockName → locks s' !! n = locks s !! n)
         ∧ (l ∉ locked s')
         ∧ (∀ l', l' ≠ l → l' ∈ locked s' ↔ l' ∈ locked s)).
Proof.
  split.
  - intros Hnone. unfold Release. by rewrite Hnone.
  - intros l Hsome Hl. unfold Release. rewrite Hsome.
    destruct (decide (l ∈ locked s)) as [_|]; [|done].
    eexists. split; [done|]. simpl.
    split; [done|]. split; [apply lookup_delete_eq|].
    split; [intros n Hn; by apply lookup_delete_ne|].
    split.
    + rewrite elem_of_difference, elem_of_singleton. tauto.
    + intros l' Hl'. rewrite elem_of_difference, elem_of_singleton. tauto.
Qed.

(** The statement above at a registry that holds "k": releasing
    "other" changes nothing, releasing "k" empties the registry. *)
Lemma Release_registered_or_not_witness :
  Release "other" one_held = Ok one_held
  ∧ ∃ s', Release "k" one_held = Ok s'
      ∧ locks s' = delete "k" (locks one_held)
      ∧ locks s' !! "k" = None
      ∧ (∀ n, n ≠ "k" → locks s' !! n = locks one_held !! n)
      ∧ (0%nat ∉ locked s')
      ∧ (∀ l', l' ≠ 0%nat → l' ∈ locked s' ↔ l' ∈ locked one_held).
Proof.
  split.
  - apply (proj1 (Release_registered_or_not "other" one_held)).
    by vm_compute.
  - apply (proj2 (Release_registered_or_not "k" one_held) 0%nat).
    + by vm_compute.
    + unfold one_held. simpl. set_solver.
Defined.

Lemma step_at (t : nat) (w : World) (th : Thread) :
  threads w !! t = Some th →
  step t w =
    match step_thread (shared w) th with
    | Stepped s' th' => Some (mkWorld s' (<[t := th']> (threads w)))
    | _ => None
    end.
Proof. intros Hth. unfold step. by rewrite Hth. Qed.

Lemma Release_mapLock (n : string) (s s' : State) (b : bool) :
  Release n s = Ok s' →
  mapLock s' = mapLock s
  ∧ Release n (set_mapLock s b) = Ok (set_mapLock s' b).
Proof.
  unfold Release. simpl. destruct (locks s !! n) as [l|].
  - destruct (decide (l ∈ locked s)); [|done].
    intros ?; by simplify_eq.
  - intros ?; by simplify_eq.
Qed.

(** The steps of a [Release] call, taken without interruption while
    [mapLock] is free, amount to the function [Release]. *)
Lemma Release_steps (t : nat) (w : World) (th : Thread) (n : string)
    (rest : list Call) (s' : State) :
  threads w !! t = Some th →
  pc th = Idle → todo th = CallRelease n :: rest →
  mapLock (shared w) = false →
  Release n (shared w) = Ok s' →
  run (release_schedule t) w =
    Some (mkWorld s'
            (<[t := mkThread Idle rest (filter (fun n' => n' ≠ n) (holds th))]>
               (threads w))).
Proof.
  intros Hth Hpc Htodo Hfree Hrel.
  destruct w as [s ths], th as [p td hs]. simpl in *. subst p td.
  assert (Hlt : (t < length ths)%nat) by (by eapply lookup_lt_Some).
  destruct (Release_mapLock n s s' true Hrel) as [Hfree' Hrel'].
  set (hs' := filter (fun n' => n' ≠ n) hs).
  assert (H1 : step t (mkWorld s ths)
               = Some (mkWorld s (<[t := mkThread (RelMapLock n) rest hs']> ths))).
  { by rewrite (step_at t (mkWorld s ths) _ Hth). }
  assert (H2 : step t (mkWorld s (<[t := mkThread (RelMapLock n) rest hs']> ths))
               = Some (mkWorld (set_mapLock s true)
                         (<[t := mkThread (RelBody n) rest hs']> ths))).
  { erewrite step_at by (by apply list_lookup_insert_eq).
    unfold step_thread. simpl. rewrite Hfree.
    by rewrite list_insert_insert_eq. }
  assert (H3 : step t (mkWorld (set_mapLock s true)
                         (<[t := mkThread (RelBody n) rest hs']> ths))
               = Some (mkWorld (set_mapLock s' true)
                         (<[t := mkThread (RelMapUnlock n) rest hs']> ths))).
  { erewrite step_at by (by apply list_lookup_insert_eq).
    unfold step_thread. cbn -[Release set_mapLock]. rewrite Hrel'.
    by rewrite list_insert_insert_eq. }
  assert (H4 : step t (mkWorld (set_mapLock s' true)
                         (<[t := mkThread (RelMapUnlock n) rest hs']> ths))
               = Some (mkWorld s' (<[t := mkThread Idle rest hs']> ths))).
  { erewrite step_at by (by apply list_lookup_insert_eq).
    unfold step_thread. simpl.
    rewrite list_insert_insert_eq. do 2 f_equal.
    destruct s'. unfold set_mapLock. simpl in *. congruence. }
  unfold release_schedule. simpl run.
  rewrite H1. simpl. rewrite H2. simpl. rewrite H3. simpl. by rewrite H4.
Qed.

Lemma step_chain (t : nat) (ths : list Thread) (th th' : Thread)
    (s s' : State) :
  (t < length ths)%nat →
  step_thread s th = Stepped s' th' →
  step t (mkWorld s (<[t := th]> ths)) = Some (mkWorld s' (<[t := th']> ths)).
Proof.
  intros Hlt Hst. erewrite step_at by (by apply list_lookup_insert_eq).
  simpl. rewrite Hst. by rewrite list_insert_insert_eq.
Qed.

(** The steps of an [Acquire] call that does not have to wait, taken
    without interruption while [mapLock] is free, amount to the function
    [Acquire]. *)
Lemma Acquire_steps (t : nat) (w : World) (th : Thread) (n : string)
    (rest : list Call) (l : mutex) (s' : State) :
  threads w !! t = Some th →
  pc th = Idle → todo th = CallAcquire n :: rest →
  mapLock (shared w) = false →
  Acquire n (shared w) = Some (l, s') →
  run (acquire_schedule t) w =
    Some (mkWorld s' (<[t := mkThread Idle rest (n :: holds th)]> (threads w))).
Proof.
  intros Hth Hpc Htodo Hfree Hacq.
  destruct w as [s ths], th as [p td hs]. simpl in *. subst p td.
  assert (Hlt : (t < length ths)%nat) by (by eapply lookup_lt_Some).
  (* the state after the lookup, and the mutex found or made *)
  set (s1 := match locks s !! n with
             | Some _ => s
             | None => mkState (locks s) (mapLock s) (locked s) (S (next s))
             end).
  assert (Hs1 : locks s1 = locks s ∧ mapLock s1 = false
                ∧ locked s1 = locked s).
  { unfold s1. by destruct (locks s !! n). }
  destruct Hs1 as (Hlocks1 & Hfree1 & Hlocked1).
  assert (Hl : (l ∉ locked s1)
               ∧ s' = mkState (<[n := l]> (locks s1)) (mapLock s1)
                              ({[l]} ∪ locked s1) (next s1)
               ∧ step_thread (set_mapLock s true)
                   (mkThread (AcqLookup n) rest hs)
                 = Stepped (set_mapLock s1 true)
                           (mkThread (AcqMapUnlock1 n l) rest hs)).
  { unfold Acquire in Hacq. rewrite Hfree in Hacq.
    unfold s1, step_thread. simpl.
    destruct (locks s !! n) as [l0|].
    - destruct (decide (l0 ∈ locked s)); [done|]. simplify_eq.
      by rewrite Hfree.
    - simpl in Hacq. destruct (decide (next s ∈ locked s)); [done|].
      simplify_eq. simpl. by rewrite Hfree. }
  destruct Hl as (Hnot & -> & H3). clearbody s1.
  assert (H1 : step t (mkWorld s ths)
               = Some (mkWorld s (<[t := mkThread (AcqMapLock1 n) rest hs]> ths))).
  { by rewrite (step_at t (mkWorld s ths) _ Hth). }
  pose proof (step_chain t ths (mkThread (AcqMapLock1 n) rest hs)
    (mkThread (AcqLookup n) rest hs) s (set_mapLock s true) Hlt) as H2.
  pose proof (step_chain t ths _ _ _ _ Hlt H3) as H3'.
  pose proof (step_chain t ths (mkThread (AcqMapUnlock1 n l) rest hs)
    (mkThread (AcqLock n l) rest hs) (set_mapLock s1 true) s1 Hlt) as H4.
  pose proof (step_chain t ths (mkThread (AcqLock n l) rest hs)
    (mkThread (AcqMapLock2 n l) rest hs) s1
    (set_locked s1 ({[l]} ∪ locked s1)) Hlt) as H5.
  pose proof (step_chain t ths (mkThread (AcqMapLock2 n l) rest hs)
    (mkThread (AcqStore n l) rest hs) (set_locked s1 ({[l]} ∪ locked s1))
    (set_mapLock (set_locked s1 ({[l]} ∪ locked s1)) true) Hlt) as H6.
  pose proof (step_chain t ths (mkThread (AcqStore n l) rest hs)
    (mkThread (AcqMapUnlock2 n l) rest hs)
    (set_mapLock (set_locked s1 ({[l]} ∪ locked s1)) true)
    (set_locks (set_mapLock (set_locked s1 ({[l]} ∪ locked s1)) true)
               (<[n := l]> (locks s1))) Hlt) as H7.
  pose proof (step_chain t ths (mkThread (AcqMapUnlock2 n l) rest hs)
    (mkThread Idle rest (n :: hs))
    (set_locks (set_mapLock (set_locked s1 ({[l]} ∪ locked s1)) true)
               (<[n := l]> (locks s1)))
    (mkState (<[n := l]> (locks s1)) (mapLock s1)
             ({[l]} ∪ locked s1) (next s1)) Hlt) as H8.
  unfold acquire_schedule. cbn [run].
  rewrite H1. cbn [mbind option_bind].
  rewrite H2 by (unfold step_thread; simpl; by rewrite Hfree).
  cbn [mbind option_bind]. rewrite H3'. cbn [mbind option_bind].
  rewrite H4.
  2: { unfold step_thread. simpl. destruct s1. simpl in *. by subst. }
  cbn [mbind option_bind]. rewrite H5.
  2: { unfold step_thread. simpl. by destruct (decide (l ∈ locked s1)). }
  cbn [mbind option_bind]. rewrite H6.
  2: { unfold step_thread. simpl. by rewrite Hfree1. }
  cbn [mbind option_bind]. rewrite H7 by done.
  cbn [mbind option_bind]. rewrite H8; [done|].
  unfold step_thread. simpl. by rewrite Hfree1.
Qed.

(** The scenario of the design: while the first caller holds "k", the
    second caller of [Acquire("k")] cannot take its next step; once the
    first caller has released, it can, and it becomes the holder. *)
Example second_caller_waits :
  ∃ w1 w2 w3,
    run queue_schedule two_callers = Some w1
    ∧ holder w1 0 "k" ∧ ¬ holder w1 1 "k"
    ∧ step 1 w1 = None
    ∧ run (release_schedule 0) w1 = Some w2
    ∧ run [1; 1; 1; 1]%nat w2 = Some w3
    ∧ holder w3 1 "k" ∧ ¬ holder w3 0 "k".
Proof.
  eexists _, _, _. split; [by vm_compute|].
  split. { eexists. split; [by vm_compute|]. set_solver. }
  split. { intros (th & Hth & Hin). vm_compute in Hth. simplify_eq.
           simpl in Hin. set_solver. }
  split; [by vm_compute|]. split; [by vm_compute|].
  split; [by vm_compute|].
  split. { eexists. split; [by vm_compute|]. set_solver. }
  intros (th & Hth & Hin). vm_compute in Hth. simplify_eq.
  simpl in Hin. set_solver.
Qed.

(** C9: the design asks that a name has at most one holder at a time.
    When two callers of [Acquire("k")] both look the name up before
    either has registered its mutex, each creates a mutex of its own,
    locks it and returns: both hold "k". *)
Theorem two_holders_of_one_name :
  ∃ w, run race_schedule two_callers = Some w
    ∧ holder w 0 "k" ∧ holder w 1 "k"
    ∧ ¬ mutual_exclusion w.
Proof.
  eexists. split; [by vm_compute|].
  assert (H0 : ∀ w, threads w !! 0%nat = Some (mkThread Idle [CallRelease "k"] ["k"]) →
               holder w 0 "k").
  { intros w Hw. eexists. split; [done|]. set_solver. }
  assert (H1 : ∀ w, threads w !! 1%nat = Some (mkThread Idle [CallRelease "k"] ["k"]) →
               holder w 1 "k").
  { intros w Hw. eexists. split; [done|]. set_solver. }
  split; [by apply H0|]. split; [by apply H1|].
  intros Hme. specialize (Hme 0%nat 1%nat "k"). 
  assert (0 = 1)%nat; [|done]. apply Hme; [by apply H0|by apply H1].
Qed.

End LockProperties.

(** ** Invariants of the named-lock manager *)
Section LockInvariants.

Import Locks.

Implicit Types (w : World) (s : State) (th : Thread) (t : nat) (l : mutex)
  (n : string).

Lemma lookup_update (ths : list Thread) t t' th' x :
  <[t := th']> ths !! t' = Some x →
  (t' = t ∧ x = th') ∨ (t' ≠ t ∧ ths !! t' = Some x).
Proof.
  intros H. apply list_lookup_insert_Some in H as [(-> & -> & _)|[? ?]]; auto.
Qed.

(** The uses of the world after a step of goroutine [t]: what the
    registry holds, what [t] carries now, what the others carried. *)
Lemma uses_update s' ths t th th' n l :
  ths !! t = Some th →
  uses (mkWorld s' (<[t := th']> ths)) n l →
  locks s' !! n = Some l
  ∨ pc_mutex (pc th') = Some (n, l)
  ∨ ∃ t' th'', t' ≠ t ∧ ths !! t' = Some th''
      ∧ pc_mutex (pc th'') = Some (n, l).
Proof.
  intros Hth [Hreg|(t' & x & Hx & Hpc)]; simpl in *; [by left|].
  apply lookup_update in Hx as [[-> ->]|[Hne Hx]]; [by right; left|].
  right; right. by exists t', x.
Qed.

Lemma uses_other s ths t' th'' n l :
  ths !! t' = Some th'' → pc_mutex (pc th'') = Some (n, l) →
  uses (mkWorld s ths) n l.
Proof. intros. right. by exists t', th''. Qed.

Lemma pc_owns_mutex p l : pc_owns p = Some l → ∃ n, pc_mutex p = Some (n, l).
Proof. destruct p; simpl; intros; simplify_eq; eauto. Qed.

(** Steps that leave the registry and the mutexes alone and give the
    goroutine nothing new to carry. *)
Lemma inv_frame s s' ths t th th' :
  inv (mkWorld s ths) → ths !! t = Some th →
  locks s' = locks s → locked s' = locked s → next s' = next s →
  (∀ n l, pc_mutex (pc th') = Some (n, l) → uses (mkWorld s ths) n l) →
  (pc_owns (pc th') = None ∨ pc_owns (pc th') = pc_owns (pc th)) →
  inv (mkWorld s' (<[t := th']> ths)).
Proof.
  intros [Hlocked Hname Hnext Howns] Hth Hl Hk Hn Hcarry Hown. simpl in *.
  assert (Huses : ∀ n l, uses (mkWorld s' (<[t := th']> ths)) n l →
                         uses (mkWorld s ths) n l).
  { intros n l Hu. apply (uses_update _ _ _ _ _ _ _ Hth) in Hu
      as [Hreg|[Hpc|(t' & x & _ & Hx & Hpc)]].
    - left. simpl. by rewrite <-Hl.
    - by apply Hcarry.
    - by eapply uses_other. }
  split; simpl.
  - intros n l. rewrite Hl, Hk. apply Hlocked.
  - intros n n' l Hu Hu'. eauto.
  - intros n l Hu. rewrite Hn. eauto.
  - intros t1 th1 l Hth1 Ho1. rewrite Hl, Hk.
    assert (∃ th0, ths !! t1 = Some th0 ∧ pc_owns (pc th0) = Some l)
      as (th0 & Hth0 & Ho0).
    { apply lookup_update in Hth1 as [[-> ->]|[Hne Hth1]]; [|eauto].
      exists th. split; [done|]. destruct Hown as [Hown|Hown]; congruence. }
    destruct (Howns t1 th0 l Hth0 Ho0) as (Hin & Hreg & Huniq).
    split; [done|]. split; [done|].
    intros t2 th2 Hth2 Ho2.
    apply lookup_update in Hth2 as [[-> ->]|[Hne Hth2]]; [|eauto].
    apply (Huniq t th); [done|]. destruct Hown as [Hown|Hown]; congruence.
Qed.


(** [l = &sync.Mutex{}]: a new address. *)
Lemma inv_alloc s ths t th n p :
  inv (mkWorld s ths) → ths !! t = Some th →
  pc_mutex p = Some (n, next s) → pc_owns p = None →
  inv (mkWorld (mkState (locks s) (mapLock s) (locked s) (S (next s)))
               (<[t := goto th p]> ths)).
Proof.
  intros [Hlocked Hname Hnext Howns] Hth Hp Hown. simpl in *.
  assert (Huses : ∀ n' l,
    uses (mkWorld (mkState (locks s) (mapLock s) (locked s) (S (next s)))
                  (<[t := goto th p]> ths)) n' l →
    (n' = n ∧ l = next s) ∨ uses (mkWorld s ths) n' l).
  { intros n' l Hu. apply (uses_update _ _ _ _ _ _ _ Hth) in Hu
      as [Hreg|[Hpc|(t' & x & _ & Hx & Hpc)]]; simpl in *.
    - right. by left.
    - left. rewrite Hp in Hpc. by simplify_eq.
    - right. by eapply uses_other. }
  split; simpl.
  - done.
  - intros n1 n2 l Hu1 Hu2.
    apply Huses in Hu1 as [[-> ->]|Hu1], Hu2 as [[-> Hl2]|Hu2]; eauto.
    + apply Hnext in Hu2. lia.
    + subst l. apply Hnext in Hu1. lia.
  - intros n' l Hu. apply Huses in Hu as [[-> ->]|Hu]; [lia|].
    apply Hnext in Hu. lia.
  - intros t1 th1 l Hth1 Ho1.
    assert (t1 ≠ t ∧ ths !! t1 = Some th1) as [Hne1 Hth1'].
    { apply lookup_update in Hth1 as [[-> ->]|[? ?]]; [|done].
      simpl in Ho1. congruence. }
    destruct (Howns t1 th1 l Hth1' Ho1) as (Hin & Hreg & Huniq).
    split; [done|]. split; [done|].
    intros t2 th2 Hth2 Ho2.
    apply lookup_update in Hth2 as [[-> ->]|[Hne Hth2]]; [|eauto].
    simpl in Ho2. congruence.
Qed.

(** [l.Lock()] succeeds. *)
Lemma inv_lock s ths t th n l :
  inv (mkWorld s ths) → ths !! t = Some th →
  pc th = AcqLock n l → l ∉ locked s →
  inv (mkWorld (set_locked s ({[l]} ∪ locked s))
               (<[t := goto th (AcqMapLock2 n l)]> ths)).
Proof.
  intros [Hlocked Hname Hnext Howns] Hth Hpc Hfree. simpl in *.
  assert (Huses : ∀ n' l',
    uses (mkWorld (set_locked s ({[l]} ∪ locked s))
                  (<[t := goto th (AcqMapLock2 n l)]> ths)) n' l' →
    uses (mkWorld s ths) n' l').
  { intros n' l' Hu. apply (uses_update _ _ _ _ _ _ _ Hth) in Hu
      as [Hreg|[Hp|(t' & x & _ & Hx & Hp)]]; simpl in *.
    - by left.
    - simplify_eq. eapply uses_other; [done|]. by rewrite Hpc.
    - by eapply uses_other. }
  split; simpl.
  - intros n' l' Hreg. apply elem_of_union_r. eauto.
  - eauto.
  - eauto.
  - intros t1 th1 l1 Hth1 Ho1.
    apply lookup_update in Hth1 as [[-> ->]|[Hne1 Hth1]].
    + simpl in Ho1. simplify_eq. split; [by apply elem_of_union_l, elem_of_singleton|].
      split.
      * intros n' Hreg. apply Hfree. eauto.
      * intros t2 th2 Hth2 Ho2.
        apply lookup_update in Hth2 as [[-> ->]|[Hne2 Hth2]]; [done|].
        destruct (Howns t2 th2 l1 Hth2 Ho2) as (Hin & _). done.
    + destruct (Howns t1 th1 l1 Hth1 Ho1) as (Hin & Hreg & Huniq).
      split; [by apply elem_of_union_r|]. split; [done|].
      intros t2 th2 Hth2 Ho2.
      apply lookup_update in Hth2 as [[-> ->]|[Hne2 Hth2]]; [|eauto].
      simpl in Ho2. by simplify_eq.
Qed.

(** [locks[lockName] = l] *)
Lemma inv_store s ths t th n l :
  inv (mkWorld s ths) → ths !! t = Some th →
  pc th = AcqStore n l →
  inv (mkWorld (set_locks s (<[n := l]> (locks s)))
               (<[t := goto th (AcqMapUnlock2 n l)]> ths)).
Proof.
  intros [Hlocked Hname Hnext Howns] Hth Hpc. simpl in *.
  assert (Hcarried : uses (mkWorld s ths) n l).
  { eapply uses_other; [done|]. by rewrite Hpc. }
  destruct (Howns t th l Hth ltac:(by rewrite Hpc)) as (Hin & Hreg & Huniq).
  assert (Huses : ∀ n' l',
    uses (mkWorld (set_locks s (<[n := l]> (locks s)))
                  (<[t := goto th (AcqMapUnlock2 n l)]> ths)) n' l' →
    uses (mkWorld s ths) n' l').
  { intros n' l' Hu. apply (uses_update _ _ _ _ _ _ _ Hth) in Hu
      as [Hr|[Hp|(t' & x & _ & Hx & Hp)]]; simpl in *.
    - apply lookup_insert_Some in Hr as [[-> ->]|[_ Hr]]; [done|by left].
    - by simplify_eq.
    - by eapply uses_other. }
  split; simpl.
  - intros n' l' Hr.
    apply lookup_insert_Some in Hr as [[-> ->]|[_ Hr]]; eauto.
  - eauto.
  - eauto.
  - intros t1 th1 l1 Hth1 Ho1.
    assert (t1 ≠ t ∧ ths !! t1 = Some th1) as [Hne1 Hth1'].
    { by apply lookup_update in Hth1 as [[-> ->]|[? ?]]. }
    destruct (Howns t1 th1 l1 Hth1' Ho1) as (Hin1 & Hreg1 & Huniq1).
    split; [done|]. split.
    + intros n' Hr.
      apply lookup_insert_Some in Hr as [[-> ->]|[_ Hr]]; [|by eapply Hreg1].
      apply Hne1. by eapply Huniq.
    + intros t2 th2 Hth2 Ho2.
      apply lookup_update in Hth2 as [[-> ->]|[Hne2 Hth2]]; [done|eauto].
Qed.

(** The body of [Release]. *)
Lemma inv_release s s' ths t th n :
  inv (mkWorld s ths) → ths !! t = Some th →
  pc th = RelBody n → Release n s = Ok s' →
  inv (mkWorld s' (<[t := goto th (RelMapUnlock n)]> ths)).
Proof.
  intros Hinv Hth Hpc Hrel. unfold Release in Hrel.
  destruct (locks s !! n) as [l|] eqn:Hreg.
  2: { simplify_eq. apply (inv_frame s' s' ths t th); try done.
       by left. }
  destruct (decide (l ∈ locked s)) as [Hin|]; [|done]. simplify_eq.
  destruct Hinv as [Hlocked Hname Hnext Howns]. simpl in *.
  assert (Huses : ∀ n' l',
    uses (mkWorld (mkState (delete n (locks s)) (mapLock s)
                           (locked s ∖ {[l]}) (next s))
                  (<[t := goto th (RelMapUnlock n)]> ths)) n' l' →
    uses (mkWorld s ths) n' l').
  { intros n' l' Hu. apply (uses_update _ _ _ _ _ _ _ Hth) in Hu
      as [Hr|[Hp|(t' & x & _ & Hx & Hp)]]; simpl in *.
    - apply lookup_delete_Some in Hr as [_ Hr]. by left.
    - done.
    - by eapply uses_other. }
  split; simpl.
  - intros n' l' Hr. apply lookup_delete_Some in Hr as [Hne Hr].
    apply elem_of_difference. split; [eauto|].
    intros ->%elem_of_singleton. apply Hne.
    apply (Hname n n' l); by left.
  - eauto.
  - eauto.
  - intros t1 th1 l1 Hth1 Ho1.
    assert (t1 ≠ t ∧ ths !! t1 = Some th1) as [Hne1 Hth1'].
    { by apply lookup_update in Hth1 as [[-> ->]|[? ?]]. }
    destruct (Howns t1 th1 l1 Hth1' Ho1) as (Hin1 & Hreg1 & Huniq1).
    split.
    { apply elem_of_difference. split; [done|].
      intros ->%elem_of_singleton. by eapply Hreg1. }
    split.
    + intros n' Hr. apply lookup_delete_Some in Hr as [_ Hr]. by eapply Hreg1.
    + intros t2 th2 Hth2 Ho2.
      apply lookup_update in Hth2 as [[-> ->]|[Hne2 Hth2]]; [done|eauto].
Qed.


(** Every step keeps the invariant. *)
Lemma step_inv w t w' : inv w → step t w = Some w' → inv w'.
Proof.
  intros Hinv Hstep. destruct w as [s ths].
  unfold step in Hstep. simpl in Hstep.
  destruct (ths !! t) as [th|] eqn:Hth; [|done]. simpl in Hstep.
  destruct (step_thread s th) as [s1 th1| | |] eqn:Hst; simplify_eq.
  unfold step_thread in Hst.
  assert (Hself : ∀ n l, pc_mutex (pc th) = Some (n, l) →
                         uses (mkWorld s ths) n l).
  { intros n l Hp. by eapply uses_other. }
  destruct (pc th) eqn:Hpc.
  - destruct (todo th) as [|[n|n] rest]; simplify_eq;
      (eapply inv_frame; [exact Hinv|exact Hth|done..| |by left]); done.
  - destruct (mapLock s) eqn:Hm; simplify_eq.
    eapply inv_frame; [exact Hinv|exact Hth|done..| |by left]. done.
  - destruct (locks s !! lockName) as [l|] eqn:Hreg; simplify_eq.
    + eapply inv_frame; [exact Hinv|exact Hth|done..| |by left].
      simpl. intros n l' ?. simplify_eq. by left.
    + by apply (inv_alloc s ths t th lockName).
  - destruct (mapLock s) eqn:Hm; simplify_eq.
    eapply inv_frame; [exact Hinv|exact Hth|done..| |by left].
    simpl. intros n l' ?. simplify_eq. by apply Hself.
  - destruct (decide (l ∈ locked s)); simplify_eq. by apply inv_lock.
  - destruct (mapLock s) eqn:Hm; simplify_eq.
    eapply inv_frame; [exact Hinv|exact Hth|done..| |right; by rewrite Hpc].
    simpl. intros n l' ?. simplify_eq. by apply Hself.
  - simplify_eq. by apply inv_store.
  - destruct (mapLock s) eqn:Hm; simplify_eq.
    eapply inv_frame; [exact Hinv|exact Hth|done..| |by left]. done.
  - destruct (mapLock s) eqn:Hm; simplify_eq.
    eapply inv_frame; [exact Hinv|exact Hth|done..| |by left]. done.
  - destruct (Release lockName s) as [s'|] eqn:Hrel; simplify_eq.
    by eapply inv_release.
  - destruct (mapLock s) eqn:Hm; simplify_eq.
    eapply inv_frame; [exact Hinv|exact Hth|done..| |by left]. done.
Qed.

Lemma run_inv sched : ∀ w w', inv w → run sched w = Some w' → inv w'.
Proof.
  induction sched as [|t sched IH]; intros w w' Hinv Hrun; simpl in Hrun.
  - by simplify_eq.
  - destruct (step t w) as [w1|] eqn:Hstep; [|done]. simpl in Hrun.
    eauto using step_inv.
Qed.

Lemma spawn_inv progs : inv (spawn progs).
Proof.
  assert (Hno : ∀ n l, ¬ uses (spawn progs) n l).
  { intros n l [Hreg|(t & th & Hth & Hp)]; [done|].
    unfold spawn in Hth. simpl in Hth.
    apply list_lookup_fmap_Some in Hth as (p & -> & _). done. }
  split.
  - done.
  - intros n n' l Hu. by apply Hno in Hu.
  - intros n l Hu. by apply Hno in Hu.
  - intros t th l Hth Ho. unfold spawn in Hth. simpl in Hth.
    apply list_lookup_fmap_Some in Hth as (p & -> & _). done.
Qed.

Lemma reachable_inv w : reachable w → inv w.
Proof. intros (progs & sched & Hrun). eauto using run_inv, spawn_inv. Qed.

(** In a reachable world [Release] never unlocks a mutex that is not
    locked. *)
Lemma reachable_Release_Ok w n :
  reachable w → ∃ s', Release n (shared w) = Ok s'.
Proof.
  intros [Hlocked _ _ _]%reachable_inv. unfold Release.
  destruct (locks (shared w) !! n) as [l|] eqn:Hreg; [|eauto].
  destruct (decide (l ∈ locked (shared w))) as [|Hnot]; [eauto|].
  destruct Hnot. eauto.
Qed.

(** X21: Calls on one name leave the mutexes of the other names alone: when a
    step changes whether a mutex in use for [n] is locked, the goroutine
    that took the step is executing a call on [n]. *)
Lemma other_names_untouched w t th w' n l :
  reachable w → threads w !! t = Some th → step t w = Some w' →
  uses w n l → pc_name (pc th) ≠ Some n →
  l ∈ locked (shared w') ↔ l ∈ locked (shared w).
Proof.
  intros Hinv%reachable_inv Hth Hstep Hu Hn.
  destruct w as [s ths]. simpl in *.
  unfold step in Hstep. simpl in Hstep. rewrite Hth in Hstep. simpl in Hstep.
  destruct (step_thread s th) as [s1 th1| | |] eqn:Hst; simplify_eq. simpl.
  unfold step_thread in Hst.
  destruct (pc th) eqn:Hpc; simpl in Hn.
  - by destruct (todo th) as [|[?|?] ?]; simplify_eq.
  - by destruct (mapLock s); simplify_eq.
  - by destruct (locks s !! lockName); simplify_eq.
  - by destruct (mapLock s); simplify_eq.
  - destruct (decide (l0 ∈ locked s)); simplify_eq. simpl.
    assert (l ≠ l0).
    { intros ->. apply Hn. f_equal.
      apply (inv_name _ Hinv lockName n l0); [|done].
      eapply uses_other; [done|]. by rewrite Hpc. }
    rewrite elem_of_union, elem_of_singleton. tauto.
  - by destruct (mapLock s); simplify_eq.
  - by simplify_eq.
  - by destruct (mapLock s); simplify_eq.
  - by destruct (mapLock s); simplify_eq.
  - destruct (Release lockName s) as [s'|] eqn:Hrel; simplify_eq.
    unfold Release in Hrel.
    destruct (locks s !! lockName) as [l0|] eqn:Hreg; [|by simplify_eq].
    destruct (decide (l0 ∈ locked s)); simplify_eq. simpl.
    assert (l ≠ l0).
    { intros ->. apply Hn. f_equal.
      apply (inv_name _ Hinv lockName n l0); [by left|done]. }
    rewrite elem_of_difference, elem_of_singleton. tauto.
  - by destruct (mapLock s); simplify_eq.
Qed.

(** A goroutine waits only for [mapLock] or for the mutex it carries. *)
Lemma blocked_only_on_locks s th :
  step_thread s th = Blocked →
  (mapLock s = true
   ∧ (∃ n, pc th = AcqMapLock1 n ∨ pc th = RelMapLock n
           ∨ ∃ l, pc th = AcqMapLock2 n l))
  ∨ ∃ n l, pc th = AcqLock n l ∧ l ∈ locked s.
Proof.
  unfold step_thread. destruct (pc th) eqn:Hpc; try done.
  - by destruct (todo th) as [|[?|?] ?].
  - destruct (mapLock s); [|done]. intros _. left. split; [done|]. eauto.
  - by destruct (locks s !! lockName).
  - by destruct (mapLock s).
  - destruct (decide (l ∈ locked s)); [|done]. intros _. right. eauto.
  - destruct (mapLock s); [|done]. intros _. left. split; [done|].
    exists lockName. right; right. eauto.
  - by destruct (mapLock s).
  - destruct (mapLock s); [|done]. intros _. left. split; [done|]. eauto.
  - by destruct (Release lockName s).
  - by destruct (mapLock s).
Qed.

End LockInvariants.

(** ** The byte layout *)
Section Primitives.

Import Msgp.

#[local] Arguments be_bytes : simpl never.
#[local] Arguments read_uint : simpl never.
#[local] Arguments take_bytes : simpl never.
#[local] Arguments Z.pow : simpl never.
#[local] Arguments Z.of_nat : simpl never.

Lemma Z_of_byte_of_Z z : Z_of_byte (byte_of_Z z) = z mod 256.
Proof.
  unfold Z_of_byte, byte_of_Z.
  pose proof (Z.mod_pos_bound z 256 ltac:(lia)) as Hb.
  destruct (Byte.of_N (Z.to_N (z mod 256))) as [b|] eqn:Hof; simpl.
  - apply Byte.to_of_N in Hof. rewrite Hof. lia.
  - apply Byte.of_N_None_iff in Hof. lia.
Qed.

Lemma length_le_bytes n : ∀ z, length (le_bytes n z) = n.
Proof. induction n as [|n IH]; intros z; simpl; [done|]. by rewrite IH. Qed.

Lemma length_be_bytes n z : length (be_bytes n z) = n.
Proof. unfold be_bytes. by rewrite length_rev, length_le_bytes. Qed.

Lemma be_value_snoc bs b : be_value (bs ++ [b]) = be_value bs * 256 + Z_of_byte b.
Proof. unfold be_value. by rewrite foldl_app. Qed.

Lemma be_value_be_bytes n : ∀ z, be_value (be_bytes n z) = z mod 256 ^ Z.of_nat n.
Proof.
  induction n as [|n IH]; intros z.
  { simpl. by rewrite Z.mod_1_r. }
  unfold be_bytes in *. cbn [le_bytes rev].
  rewrite be_value_snoc, IH, Z_of_byte_of_Z.
  rewrite Nat2Z.inj_succ, Z.pow_succ_r by lia.
  rewrite Z.rem_mul_r by lia. lia.
Qed.

Lemma take_bytes_app bs rest :
  take_bytes (length bs) (bs ++ rest) = Some (bs, rest).
Proof.
  unfold take_bytes.
  destruct (decide (length bs ≤ length (bs ++ rest))%nat) as [_|Hn].
  - by rewrite take_app_length, drop_app_length.
  - rewrite length_app in Hn. lia.
Qed.

Lemma read_uint_be n z rest :
  read_uint n (be_bytes n z ++ rest) = Some (z mod 256 ^ Z.of_nat n, rest).
Proof.
  unfold read_uint.
  rewrite <-(length_be_bytes n z) at 1. rewrite take_bytes_app.
  cbn [mbind option_bind]. by rewrite be_value_be_bytes.
Qed.

Lemma expect_cons b rest : expect b (b :: rest) = Some ((), rest).
Proof. unfold expect. by destruct (decide (b = b)). Qed.

Lemma wrap_mod i : Int64.wrap (i mod 2 ^ 64) = Int64.wrap i.
Proof.
  unfold Int64.wrap, Int64.modulus. f_equal.
  by rewrite Zplus_mod_idemp_l.
Qed.

(** Reduce the binds of a parser whose first reads are known. *)
Ltac bind := cbn [mbind option_bind].

Lemma ReadInt64Bytes_AppendInt64 i rest :
  Int64.in_range i →
  ReadInt64Bytes (AppendInt64 i ++ rest) = Some (i, rest).
Proof.
  intros Hi. unfold ReadInt64Bytes, AppendInt64.
  rewrite <-app_comm_cons, expect_cons. bind.
  rewrite read_uint_be. bind.
  change (256 ^ Z.of_nat 8) with (2 ^ 64).
  by rewrite wrap_mod, wrap_in_range.
Qed.

Lemma read_len_be (n : nat) rest :
  fits_len n →
  read_uint 4 (be_bytes 4 (Z.of_nat n) ++ rest) = Some (Z.of_nat n, rest).
Proof.
  unfold fits_len. intros Hn. rewrite read_uint_be.
  change (256 ^ Z.of_nat 4) with (2 ^ 32).
  rewrite Z.mod_small by lia. done.
Qed.

Lemma ReadStringBytes_AppendString s rest :
  fits_len (length (String.list_byte_of_string s)) →
  ReadStringBytes (AppendString s ++ rest) = Some (s, rest).
Proof.
  intros Hs. unfold ReadStringBytes, AppendString.
  rewrite <-app_comm_cons, expect_cons. bind.
  rewrite <-app_assoc, read_len_be by done. bind.
  rewrite Nat2Z.id, take_bytes_app. bind.
  by rewrite String.string_of_list_byte_of_string.
Qed.

Lemma ReadBytesBytes_AppendBytes bs rest :
  fits_len (length bs) →
  ReadBytesBytes (AppendBytes bs ++ rest) = Some (bs, rest).
Proof.
  intros Hs. unfold ReadBytesBytes, AppendBytes.
  rewrite <-app_comm_cons, expect_cons. bind.
  rewrite <-app_assoc, read_len_be by done. bind.
  by rewrite Nat2Z.id, take_bytes_app.
Qed.

Lemma ReadMapHeaderBytes_AppendMapHeader n rest :
  fits_len n →
  ReadMapHeaderBytes (AppendMapHeader n ++ rest) = Some (n, rest).
Proof.
  intros Hn. unfold ReadMapHeaderBytes, AppendMapHeader.
  rewrite <-app_comm_cons, expect_cons. bind.
  rewrite read_len_be by done. bind. by rewrite Nat2Z.id.
Qed.

Lemma ReadTimeBytes_AppendTime t rest :
  fits_time t →
  ReadTimeBytes (AppendTime t ++ rest) = Some (t, rest).
Proof.
  unfold fits_time. intros Ht. unfold ReadTimeBytes, AppendTime.
  rewrite <-!app_comm_cons.
  rewrite expect_cons. bind. rewrite expect_cons. bind.
  rewrite expect_cons. bind.
  rewrite <-app_assoc, read_uint_be. bind.
  rewrite read_uint_be. bind.
  change (256 ^ Z.of_nat 8) with (2 ^ 64).
  change (256 ^ Z.of_nat 4) with (2 ^ 32).
  rewrite wrap_mod, wrap_in_range by done.
  pose proof (Z.mod_pos_bound t (10 ^ 9) ltac:(lia)) as Hns.
  assert (wrap32 ((t mod 10 ^ 9) mod 2 ^ 32) = t mod 10 ^ 9) as ->.
  { unfold wrap32. rewrite (Z.mod_small (t mod 10 ^ 9)) by lia.
    rewrite Z.mod_small; lia. }
  do 2 f_equal. pose proof (Z.div_mod t (10 ^ 9) ltac:(lia)). lia.
Qed.

End Primitives.

(** ** Serialization round trip *)
Section RoundTrip.

Import Msgp.

#[local] Arguments be_bytes : simpl never.
#[local] Arguments Z.pow : simpl never.

Ltac bind := cbn [mbind option_bind].

Lemma fits_len_small (n : nat) : (n ≤ 1000)%nat → fits_len n.
Proof. unfold fits_len. intros Hn. assert (1000 < 2 ^ 32) by done. lia. Qed.

Lemma read_field_name (field : string) rest :
  (length (String.list_byte_of_string field) ≤ 1000)%nat →
  ReadStringBytes (AppendString field ++ rest) = Some (field, rest).
Proof. intros Hn. by apply ReadStringBytes_AppendString, fits_len_small. Qed.

(** Decoding what [Object.MarshalMsg] wrote gives the object back,
    whatever the receiver held before. *)
Lemma Object_roundtrip (o z : Object) (rest : list byte) :
  fits_object o →
  Object_UnmarshalMsg z (Object_MarshalMsg o ++ rest) = (o, rest, None).
Proof.
  intros (Hk & He & Hw & Ha & Hs & Hv).
  unfold Object_UnmarshalMsg, Object_MarshalMsg.
  rewrite <-!app_assoc.
  rewrite ReadMapHeaderBytes_AppendMapHeader by (by apply fits_len_small; lia).
  cbn [Object_fields].
  rewrite read_field_name by (vm_compute; lia).
  change (Object_field "key" z) with
    (fun bts => @inl _ error ('(v, r) ← ReadStringBytes bts;
       Some (mkObject v (Expiration z) (LastWrite z) (LastAccess z)
                      (Size z) (Value z), r))).
  cbv beta. rewrite ReadStringBytes_AppendString by done. bind.
  rewrite read_field_name by (vm_compute; lia).
  match goal with |- context [Object_field "expiration" ?z'] =>
    change (Object_field "expiration" z') with
      (fun bts => @inl _ error ('(v, r) ← ReadTimeBytes bts;
         Some (mkObject (Key z') v (LastWrite z') (LastAccess z')
                        (Size z') (Value z'), r))) end.
  cbv beta. rewrite ReadTimeBytes_AppendTime by done. bind.
  rewrite read_field_name by (vm_compute; lia).
  match goal with |- context [Object_field "lastwrite" ?z'] =>
    change (Object_field "lastwrite" z') with
      (fun bts => @inl _ error ('(v, r) ← ReadTimeBytes bts;
         Some (mkObject (Key z') (Expiration z') v (LastAccess z')
                        (Size z') (Value z'), r))) end.
  cbv beta. rewrite ReadTimeBytes_AppendTime by done. bind.
  rewrite read_field_name by (vm_compute; lia).
  match goal with |- context [Object_field "lastaccess" ?z'] =>
    change (Object_field "lastaccess" z') with
      (fun bts => @inl _ error ('(v, r) ← ReadTimeBytes bts;
         Some (mkObject (Key z') (Expiration z') (LastWrite z') v
                        (Size z') (Value z'), r))) end.
  cbv beta. rewrite ReadTimeBytes_AppendTime by done. bind.
  rewrite read_field_name by (vm_compute; lia).
  match goal with |- context [Object_field "size" ?z'] =>
    change (Object_field "size" z') with
      (fun bts => @inl _ error ('(v, r) ← ReadInt64Bytes bts;
         Some (mkObject (Key z') (Expiration z') (LastWrite z')
                        (LastAccess z') v (Value z'), r))) end.
  cbv beta. rewrite ReadInt64Bytes_AppendInt64 by done. bind.
  rewrite read_field_name by (vm_compute; lia).
  match goal with |- context [Object_field "value" ?z'] =>
    change (Object_field "value" z') with
      (fun bts => @inl _ error ('(v, r) ← ReadBytesBytes bts;
         Some (mkObject (Key z') (Expiration z') (LastWrite z')
                        (LastAccess z') (Size z') v, r))) end.
  cbv beta. rewrite ReadBytesBytes_AppendBytes by done. bind.
  by destruct o.
Qed.

Lemma Objects_entries_roundtrip (l : list (string * Object)) :
  ∀ (m : gmap string Object) (rest : list byte),
    Forall fits_entry l →
    Objects_entries (length l) m (concat (Objects_body <$> l) ++ rest)
      = (foldl put m l, rest, None).
Proof.
  induction l as [|[k o] l IH]; intros m rest Hl; [done|].
  apply Forall_cons in Hl as [[Hk Ho] Hl]. simpl in Hk, Ho.
  cbn [length fmap list_fmap concat Objects_entries].
  unfold Objects_body at 1. cbn [fst snd].
  rewrite <-!app_assoc.
  rewrite ReadStringBytes_AppendString by done.
  rewrite Object_roundtrip by done.
  by rewrite IH.
Qed.

Lemma foldl_put_reverse (l : list (string * Object)) :
  foldl put ∅ l = list_to_map (reverse l).
Proof.
  induction l as [|kv l IH] using rev_ind; [done|].
  by rewrite foldl_app, reverse_snoc, IH.
Qed.

(** Inserting the entries of a map one by one, in any order, builds the
    map again. *)
Lemma foldl_put_range (order : RangeOrder) (m : gmap string Object) :
  range_ok order → foldl put ∅ (order m) = m.
Proof.
  intros Ho. rewrite foldl_put_reverse.
  rewrite <-(list_to_map_to_list m) at 2.
  apply list_to_map_proper.
  - rewrite reverse_Permutation, (Ho m). apply NoDup_fst_map_to_list.
  - by rewrite reverse_Permutation.
Qed.

Lemma Index_field_CacheSize z bts :
  Index_field "CacheSize" z bts =
    match ReadInt64Bytes bts with
    | Some (v, r) => (with_counters z v (ObjectCount z), r, None)
    | None => (z, bts, Some ErrShortBytes)
    end.
Proof. reflexivity. Qed.

Lemma Index_field_ObjectCount z bts :
  Index_field "ObjectCount" z bts =
    match ReadInt64Bytes bts with
    | Some (v, r) => (with_counters z (CacheSize z) v, r, None)
    | None => (z, bts, Some ErrShortBytes)
    end.
Proof. reflexivity. Qed.

Lemma Index_field_Objects z bts :
  Index_field "Objects" z bts =
    match ReadMapHeaderBytes bts with
    | Some (n, r) =>
        let '(m, r', e) := Objects_entries n ∅ r in
        (with_objects z (Some m), r', e)
    | None => (z, bts, Some ErrShortBytes)
    end.
Proof. reflexivity. Qed.

Lemma fits_index_entries (order : RangeOrder) (idx : Index) :
  range_ok order → fits_index idx →
  fits_len (length (order (entries idx)))
  ∧ Forall fits_entry (order (entries idx)).
Proof.
  intros Ho (_ & _ & Hsize & Hent). split.
  - by rewrite (Ho (entries idx)), length_map_to_list.
  - rewrite (Ho (entries idx)). apply Forall_forall. intros [k o] Hin.
    apply elem_of_map_to_list in Hin. by apply Hent.
Qed.

(** What the decoder makes of the bytes of the encoder. *)
Lemma Index_roundtrip (order : RangeOrder) (idx z : Index) :
  range_ok order → fits_index idx →
  Index_UnmarshalMsg z (Index_MarshalMsg order idx).1 =
    (mkIndex (CacheSize idx) (ObjectCount idx) (Some (entries idx))
             (name z) (config z) (reapInterval z) (flushInterval z),
     [], None).
Proof.
  intros Ho Hfits.
  destruct (fits_index_entries order idx Ho Hfits) as [Hlen Hent].
  destruct Hfits as (Hcs & Hoc & _ & _).
  unfold Index_UnmarshalMsg, Index_MarshalMsg. cbn [fst].
  rewrite <-(app_nil_r (concat _)).
  rewrite ReadMapHeaderBytes_AppendMapHeader by (by apply fits_len_small; lia).
  cbn [Index_fields].
  rewrite read_field_name by (vm_compute; lia).
  rewrite Index_field_CacheSize, ReadInt64Bytes_AppendInt64 by done.
  rewrite read_field_name by (vm_compute; lia).
  rewrite Index_field_ObjectCount, ReadInt64Bytes_AppendInt64 by done.
  rewrite read_field_name by (vm_compute; lia).
  rewrite Index_field_Objects.
  rewrite ReadMapHeaderBytes_AppendMapHeader by done.
  rewrite Objects_entries_roundtrip by done.
  by rewrite (foldl_put_range order (entries idx) Ho).
Qed.

End RoundTrip.

(** ** Construction from a snapshot *)
Section Construction.

Import Examples.

Lemma fits_index_intro (idx : Index) :
  Int64.in_range (CacheSize idx) → Int64.in_range (ObjectCount idx) →
  fits_len (size (entries idx)) →
  Forall fits_entry (map_to_list (entries idx)) →
  fits_index idx.
Proof.
  intros Hcs Hoc Hsize Hent.
  split; [done|]. split; [done|]. split; [done|].
  intros k o Hko. rewrite Forall_forall in Hent.
  apply (Hent (k, o)). by apply elem_of_map_to_list.
Qed.

(** C7: deserializing the bytes of a serialized index gives an index
    with the same [CacheSize], the same [ObjectCount] and the same
    entries, for every index that the layout has room for, in whatever
    order the encoder ranges over the map. *)
Theorem snapshot_roundtrip (order : RangeOrder) (idx : Index) :
  range_ok order → fits_index idx →
  ∃ idx',
    IndexFromBytes Msgp.Index_UnmarshalMsg
      (ToBytes (Msgp.Index_MarshalMsg order) idx) = (idx', None)
    ∧ CacheSize idx' = CacheSize idx
    ∧ ObjectCount idx' = ObjectCount idx
    ∧ entries idx' = entries idx.
Proof.
  intros Ho Hfits. unfold IndexFromBytes, ToBytes.
  rewrite (Index_roundtrip order idx zeroIndex Ho Hfits).
  eexists. split; [done|]. done.
Qed.

(** The statement above at the five-entry index of the hysteresis
    scenario. *)
Lemma snapshot_roundtrip_witness :
  ∃ idx',
    IndexFromBytes Msgp.Index_UnmarshalMsg
      (ToBytes (Msgp.Index_MarshalMsg listOrder) lru_index) = (idx', None)
    ∧ CacheSize idx' = CacheSize lru_index
    ∧ ObjectCount idx' = ObjectCount lru_index
    ∧ entries idx' = entries lru_index.
Proof.
  apply (snapshot_roundtrip listOrder lru_index).
  - by intros m.
  - apply fits_index_intro.
    + apply (bool_decide_unpack _). by vm_compute.
    + apply (bool_decide_unpack _). by vm_compute.
    + apply (bool_decide_unpack _). by vm_compute.
    + apply (bool_decide_unpack _). by vm_compute.
Defined.

(** C6, as the design states it, fails: the caller of [NewIndex] cannot
    tell a failed deserialization from a successful one. Bytes that are
    no snapshot and the snapshot without fields both leave the receiver
    untouched, the first with an error and the second without, and
    [NewIndex] returns the same index for both. *)
Theorem NewIndex_hides_failure : ¬ surfaces_failure decode.
Proof.
  intros [failed Hfailed].
  pose proof (Hfailed "cache" garbage zeroConfig ltac:(done)) as [_ Hbad].
  pose proof (Hfailed "cache" no_fields zeroConfig ltac:(done)) as [Hgood _].
  assert (NewIndex decode "cache" no_fields zeroConfig
          = NewIndex decode "cache" garbage zeroConfig) as Heq
    by (by vm_compute).
  assert ((decode zeroIndex garbage).2 ≠ None) as Hg by (by vm_compute).
  assert ((decode zeroIndex no_fields).2 = None) as Hn by (by vm_compute).
  rewrite Heq in Hgood. by apply Hgood; [apply Hbad|].
Qed.

(** C6, amended: [NewIndex] returns the index alone, with the counters
    and the map as the decoder left them; the error of the decoder has
    no part in the value returned, which is the same for any decoder
    that leaves the same index. [IndexFromBytes] is the function that
    hands the error to its caller. *)
Theorem NewIndex_drops_error (U U' : Unmarshaler) (name : string)
    (data : list byte) (cfg : CacheIndexConfig) :
  data ≠ [] →
  (U' zeroIndex data).1.1 = (U zeroIndex data).1.1 →
  NewIndex U' name data cfg = NewIndex U name data cfg
  ∧ CacheSize (NewIndex U name data cfg) = CacheSize (U zeroIndex data).1.1
  ∧ ObjectCount (NewIndex U name data cfg) = ObjectCount (U zeroIndex data).1.1
  ∧ Objects (NewIndex U name data cfg) = Objects (U zeroIndex data).1.1
  ∧ IndexFromBytes U data = ((U zeroIndex data).1.1, (U zeroIndex data).2).
Proof.
  intros Hdata Hsame. unfold NewIndex, IndexFromBytes.
  destruct data as [|b data]; [done|]. simpl Nat.ltb. cbv iota.
  rewrite Hsame. repeat split; try done.
  by destruct (U zeroIndex (b :: data)) as [[i r] e].
Qed.

(** The statement above for the model decoder and the decoder that
    reports no error, on bytes that are no snapshot. *)
Lemma NewIndex_drops_error_witness :
  NewIndex silent "cache" garbage zeroConfig
    = NewIndex decode "cache" garbage zeroConfig
  ∧ CacheSize (NewIndex decode "cache" garbage zeroConfig)
    = CacheSize (decode zeroIndex garbage).1.1
  ∧ ObjectCount (NewIndex decode "cache" garbage zeroConfig)
    = ObjectCount (decode zeroIndex garbage).1.1
  ∧ Objects (NewIndex decode "cache" garbage zeroConfig)
    = Objects (decode zeroIndex garbage).1.1
  ∧ IndexFromBytes decode garbage
    = ((decode zeroIndex garbage).1.1, (decode zeroIndex garbage).2).
Proof.
  apply (NewIndex_drops_error decode silent "cache" garbage zeroConfig).
  - by vm_compute.
  - by vm_compute.
Defined.

(** C10, as stated, fails: a failed deserialization does not always
    leave a nil map. On a snapshot that breaks off after the header of
    its [Objects] map the decoder reports an error after it has made the
    map, [NewIndex] returns an index with an empty map, and the next
    [UpdateObject] stores its entry without a panic. *)
Theorem NewIndex_failure_may_leave_map : ¬ failure_leaves_nil_map decode.
Proof.
  intros Hnil.
  destruct (Hnil "cache" cut_short zeroConfig 1 (payload "a" 100 1))
    as [Hobjs _]; [by vm_compute..|].
  by vm_compute in Hobjs.
Qed.

(** C10, amended: on non-empty bytes the [Objects] map of the index that
    [NewIndex] returns is the map that the decoder left, with no fallback
    to an empty one, whether the decoder reported an error or not; and
    the next [UpdateObject] with a non-empty key panics on the write
    exactly when that map is nil, which is when the decoder stopped
    before it made the map. *)
Theorem NewIndex_nil_map_panics (U : Unmarshaler) (name : string)
    (data : list byte) (cfg : CacheIndexConfig) (now : Time) (obj : Object) :
  data ≠ [] →
  Key obj ≠ "" →
  Objects (NewIndex U name data cfg) = Objects (U zeroIndex data).1.1
  ∧ (UpdateObject now obj (NewIndex U name data cfg)
     = Panic "assignment to entry in nil map"
     ↔ Objects (U zeroIndex data).1.1 = None).
Proof.
  intros Hdata Hkey.
  assert (Objects (NewIndex U name data cfg)
          = Objects (U zeroIndex data).1.1) as Hobjs.
  { unfold NewIndex. destruct data as [|b data]; [done|]. by simpl. }
  split; [done|]. rewrite <- Hobjs.
  destruct (Objects (NewIndex U name data cfg)) as [m|] eqn:Hm.
  - by rewrite (UpdateObject_Some now obj _ m Hkey Hm).
  - by rewrite UpdateObject_nil.
Qed.

(** The statement above for the model decoder on bytes that are no
    snapshot: the decoder fails before it makes the map, the map is nil
    and the write panics. *)
Lemma NewIndex_nil_map_panics_witness :
  (decode zeroIndex garbage).2 ≠ None
  ∧ Objects (NewIndex decode "cache" garbage zeroConfig) = None
  ∧ UpdateObject 1 (payload "a" 100 1)
      (NewIndex decode "cache" garbage zeroConfig)
    = Panic "assignment to entry in nil map".
Proof.
  destruct (NewIndex_nil_map_panics decode "cache" garbage zeroConfig
              1 (payload "a" 100 1)) as [Hobjs Hiff].
  - by vm_compute.
  - by vm_compute.
  - split; [by vm_compute|]. split.
    + rewrite Hobjs. by vm_compute.
    + apply Hiff. by vm_compute.
Defined.

(** Without persisted bytes the map is made, and no write panics. *)
Lemma NewIndex_empty_data (U : Unmarshaler) name cfg :
  Objects (NewIndex U name [] cfg) = Some ∅
  ∧ CacheSize (NewIndex U name [] cfg) = 0
  ∧ ObjectCount (NewIndex U name [] cfg) = 0.
Proof. done. Qed.

(** A decoder that fails after it has made the map leaves a map behind:
    the model decoder on a snapshot cut short after the header of
    [Objects] reports an error, and the index has an empty map that
    takes the next write. *)
Example failure_after_map_header :
  (decode zeroIndex cut_short).2 = Some Msgp.ErrShortBytes
  ∧ Objects (NewIndex decode "cache" cut_short zeroConfig) = Some ∅
  ∧ ∃ idx', UpdateObject 1 (payload "a" 100 1)
              (NewIndex decode "cache" cut_short zeroConfig) = Ok idx'.
Proof.
  split; [by vm_compute|]. split; [by vm_compute|].
  eexists. by vm_compute.
Qed.

End Construction.

(** ** The operations of the index, one by one *)
Section IndexOperations.

Implicit Types (idx : Index) (obj o : Object) (key k : string)
  (m : gmap string Object).

Lemma total_size_insert m k o :
  m !! k = None → total_size (<[k := o]> m) = Size o + total_size m.
Proof.
  intros Hk. unfold total_size. rewrite map_fold_insert_L; [done| |done].
  intros. lia.
Qed.

Lemma total_size_delete m k o :
  m !! k = Some o → total_size m = Size o + total_size (delete k m).
Proof.
  intros Hk. unfold total_size.
  rewrite (map_fold_delete_L _ _ k o m); [done| |done]. intros. lia.
Qed.

Lemma total_size_replace m k o o' :
  m !! k = Some o →
  total_size (<[k := o']> m) = total_size m - Size o + Size o'.
Proof.
  intros Hk. rewrite <-insert_delete_eq.
  rewrite total_size_insert by apply lookup_delete_eq.
  rewrite (total_size_delete m k o Hk). lia.
Qed.

Lemma wrap_sub_l a b : Int64.wrap (Int64.wrap a - b) = Int64.wrap (a - b).
Proof.
  replace (Int64.wrap a - b) with (Int64.wrap a + (- b)) by lia.
  rewrite wrap_add_l. f_equal; lia.
Qed.

Lemma wrap_add_r a b : Int64.wrap (a + Int64.wrap b) = Int64.wrap (a + b).
Proof. rewrite Z.add_comm, wrap_add_l. f_equal; lia. Qed.

(** What [RemoveObject] does to an index that has the key. *)
Lemma RemoveObject_Some key noLock idx m o :
  Objects idx = Some m → m !! key = Some o →
  RemoveObject key noLock idx =
    mkIndex (Int64.sub (CacheSize idx) (Size o))
            (Int64.sub (ObjectCount idx) 1)
            (Some (delete key m))
            (name idx) (config idx) (reapInterval idx) (flushInterval idx).
Proof.
  intros Hm Ho. unfold RemoveObject, entries. rewrite Hm. simpl.
  rewrite Ho. unfold with_objects, with_counters. simpl. by rewrite ?Hm.
Qed.

Lemma RemoveObject_None key noLock idx :
  entries idx !! key = None → RemoveObject key noLock idx = idx.
Proof. intros Hk. unfold RemoveObject. by rewrite Hk. Qed.

Lemma RemoveObject_entries key noLock idx :
  entries (RemoveObject key noLock idx) = delete key (entries idx).
Proof.
  unfold RemoveObject.
  destruct (entries idx !! key) as [o|] eqn:Hk.
  - unfold entries in *. destruct (Objects idx) as [m|]; [done|].
    simpl in Hk. by rewrite lookup_empty in Hk.
  - by rewrite delete_id.
Qed.



Lemma entries_with_objects idx m : entries (with_objects idx (Some m)) = m.
Proof. done. Qed.

(** X5: [RemoveObject] on a key that is not there changes nothing, and a
    second removal of the same key changes nothing more. *)
Lemma RemoveObject_again key noLock noLock' idx :
  (entries idx !! key = None → RemoveObject key noLock idx = idx)
  ∧ RemoveObject key noLock' (RemoveObject key noLock idx)
    = RemoveObject key noLock idx.
Proof.
  split; [apply RemoveObject_None|].
  apply RemoveObject_None. rewrite RemoveObject_entries.
  apply lookup_delete_eq.
Qed.

(** X4: Storing an object under a new key and removing that key again gives
    the index back as it was: the entry that [UpdateObject] stores carries
    the length of the payload, and [RemoveObject] takes exactly that off
    the counters. *)
Lemma UpdateObject_RemoveObject now obj noLock idx m :
  Key obj ≠ "" → Objects idx = Some m → m !! Key obj = None →
  Int64.in_range (CacheSize idx) → Int64.in_range (ObjectCount idx) →
  ∃ idx1, UpdateObject now obj idx = Ok idx1
    ∧ entries idx1 !! Key obj
      = Some (mkObject (Key obj) (Expiration obj) now now
                       (Z.of_nat (length (Value obj))) [])
    ∧ RemoveObject (Key obj) noLock idx1 = idx.
Proof.
  intros Hk Hm Hnew Hcs Hoc.
  rewrite (UpdateObject_Some now obj idx m Hk Hm), Hnew.
  eexists. split; [done|]. split.
  { unfold entries. simpl. apply lookup_insert_eq. }
  erewrite RemoveObject_Some; [|done|apply lookup_insert_eq]. simpl.
  rewrite delete_insert_eq, delete_id by done.
  unfold Int64.sub, Int64.add. rewrite !wrap_sub_l.
  replace (CacheSize idx + Z.of_nat (length (Value obj))
           - Z.of_nat (length (Value obj))) with (CacheSize idx) by lia.
  replace (ObjectCount idx + 1 - 1) with (ObjectCount idx) by lia.
  rewrite !wrap_in_range by done. destruct idx. simpl in *. by subst.
Qed.

Lemma UpdateObject_RemoveObject_witness :
  ∃ idx1,
    UpdateObject 1 (Examples.payload "a" 100 1) (Examples.fresh zeroConfig)
      = Ok idx1
    ∧ entries idx1 !! "a" = Some (mkObject "a" 100 1 1 1 [])
    ∧ RemoveObject "a" false idx1 = Examples.fresh zeroConfig.
Proof.
  apply (UpdateObject_RemoveObject 1 (Examples.payload "a" 100 1) false
           (Examples.fresh zeroConfig) ∅); by vm_compute.
Defined.

Lemma UpdateObjectAccessTime_ObjectCount now key idx :
  ObjectCount (UpdateObjectAccessTime now key idx) = ObjectCount idx.
Proof.
  unfold UpdateObjectAccessTime. by destruct (entries idx !! key).
Qed.

Lemma UpdateObjectAccessTime_lookup now key idx k o :
  entries (UpdateObjectAccessTime now key idx) !! k = Some o →
  ∃ o0, entries idx !! k = Some o0
    ∧ Key o = Key o0 ∧ Size o = Size o0 ∧ Value o = Value o0.
Proof.
  unfold UpdateObjectAccessTime.
  destruct (entries idx !! key) as [o1|] eqn:Hk; [|eauto].
  unfold entries at 1. simpl. intros Hko.
  apply lookup_insert_Some in Hko as [[<- <-]|[_ Hko]]; eauto.
Qed.

(** X6: [UpdateObjectAccessTime]: the counters, the configuration and the
    other entries stay; the entry of the key, when there is one, gets the
    new [LastAccess] and nothing else. *)
Lemma UpdateObjectAccessTime_effect now key idx :
  CacheSize (UpdateObjectAccessTime now key idx) = CacheSize idx
  ∧ ObjectCount (UpdateObjectAccessTime now key idx) = ObjectCount idx
  ∧ config (UpdateObjectAccessTime now key idx) = config idx
  ∧ (entries idx !! key = None → UpdateObjectAccessTime now key idx = idx)
  ∧ (∀ k, k ≠ key →
       entries (UpdateObjectAccessTime now key idx) !! k = entries idx !! k)
  ∧ entries (UpdateObjectAccessTime now key idx) !! key
    = (fun o => mkObject (Key o) (Expiration o) (LastWrite o) now
                         (Size o) (Value o)) <$> entries idx !! key.
Proof.
  unfold UpdateObjectAccessTime.
  destruct (entries idx !! key) as [o|] eqn:Hk; simpl.
  - split_and!; try done.
    + intros k Hne. unfold entries at 1. simpl. by rewrite lookup_insert_ne.
    + unfold entries at 1. simpl. by rewrite lookup_insert_eq.
  - by split_and!.
Qed.

Lemma UpdateObjectAccessTime_size now key idx :
  size (entries (UpdateObjectAccessTime now key idx)) = size (entries idx).
Proof.
  unfold UpdateObjectAccessTime.
  destruct (entries idx !! key) as [o|] eqn:Hk; [|done].
  unfold entries at 1. simpl. by rewrite map_size_insert_Some by eauto.
Qed.

(** *** The invariants, operation by operation *)

Lemma UpdateObject_stored_ok now obj idx idx' :
  stored_ok idx → UpdateObject now obj idx = Ok idx' → stored_ok idx'.
Proof.
  intros Hok Hup.
  destruct (decide (Key obj = "")) as [Hk|Hk].
  { rewrite UpdateObject_empty_key in Hup by done. by simplify_eq. }
  destruct (Objects idx) as [m|] eqn:Hm.
  2: { by rewrite UpdateObject_nil in Hup. }
  rewrite (UpdateObject_Some now obj idx m Hk Hm) in Hup. simplify_eq.
  intros k o. unfold entries. simpl. intros Hko.
  apply lookup_insert_Some in Hko as [[<- <-]|[Hne Hko]].
  - simpl. repeat split; [done|lia].
  - apply Hok. unfold entries. by rewrite Hm.
Qed.

Lemma RemoveObject_stored_ok key noLock idx :
  stored_ok idx → stored_ok (RemoveObject key noLock idx).
Proof.
  intros Hok k o. rewrite RemoveObject_entries.
  intros [_ Hko]%lookup_delete_Some. by apply Hok.
Qed.

Lemma UpdateObjectAccessTime_stored_ok now key idx :
  stored_ok idx → stored_ok (UpdateObjectAccessTime now key idx).
Proof.
  intros Hok k o Hko.
  apply UpdateObjectAccessTime_lookup in Hko as (o0 & Hk0 & HK & HS & HV).
  rewrite HK, HS, HV. by apply (Hok k o0).
Qed.

Lemma RemoveObject_count_ok key noLock idx :
  count_ok idx → count_ok (RemoveObject key noLock idx).
Proof.
  intros Hc. by apply (apply_op_count_ok (OpRemove key noLock) idx).
Qed.

Lemma UpdateObjectAccessTime_count_ok now key idx :
  count_ok idx → count_ok (UpdateObjectAccessTime now key idx).
Proof.
  unfold count_ok. intros Hc. rewrite UpdateObjectAccessTime_size.
  by rewrite UpdateObjectAccessTime_ObjectCount.
Qed.

Lemma UpdateObject_size_ok now obj idx idx' :
  size_ok idx → same_size_write obj idx →
  UpdateObject now obj idx = Ok idx' → size_ok idx'.
Proof.
  unfold size_ok, same_size_write. intros Hs Hw Hup.
  destruct (decide (Key obj = "")) as [Hk|Hk].
  { rewrite UpdateObject_empty_key in Hup by done. by simplify_eq. }
  destruct (Objects idx) as [m|] eqn:Hm.
  2: { by rewrite UpdateObject_nil in Hup. }
  rewrite (UpdateObject_Some now obj idx m Hk Hm) in Hup. simplify_eq.
  unfold entries in *. rewrite Hm in *. simpl in *.
  destruct (m !! Key obj) as [o|] eqn:Ho.
  - rewrite (total_size_replace m (Key obj) o) by done. simpl.
    unfold Int64.add, Int64.sub. rewrite Z.sub_diag, wrap_add_r, Z.add_0_r.
    rewrite Hs, wrap_idemp. f_equal. lia.
  - rewrite total_size_insert by done. simpl.
    unfold Int64.add. rewrite Hs, wrap_add_l. f_equal. lia.
Qed.

Lemma RemoveObject_size_ok key noLock idx :
  size_ok idx → size_ok (RemoveObject key noLock idx).
Proof.
  unfold size_ok. intros Hs.
  destruct (entries idx !! key) as [o|] eqn:Hk.
  2: { by rewrite RemoveObject_None. }
  unfold entries in *. destruct (Objects idx) as [m|] eqn:Hm; [|done].
  simpl in *. rewrite (RemoveObject_Some key noLock idx m o Hm Hk). simpl.
  unfold Int64.sub. rewrite Hs, wrap_sub_l. f_equal.
  rewrite (total_size_delete m key o Hk). lia.
Qed.

Lemma UpdateObjectAccessTime_size_ok now key idx :
  size_ok idx → size_ok (UpdateObjectAccessTime now key idx).
Proof.
  unfold size_ok. intros Hs. unfold UpdateObjectAccessTime.
  destruct (entries idx !! key) as [o|] eqn:Hk; [|done].
  rewrite entries_with_objects.
  rewrite (total_size_replace _ key o) by done. simpl. rewrite Hs.
  f_equal. lia.
Qed.

(** *** The callback that removes each key *)

Lemma removeEach_cons k keys noLock idx :
  removeEach (k :: keys) noLock idx
  = removeEach keys noLock (RemoveObject k noLock idx).
Proof. done. Qed.

Lemma removeEach_keeps (P : Index → Prop) keys noLock :
  (∀ k idx, P idx → P (RemoveObject k noLock idx)) →
  ∀ idx, P idx → P (removeEach keys noLock idx).
Proof.
  intros HP. induction keys as [|k keys IH]; intros idx Hidx; [done|].
  rewrite removeEach_cons. by apply IH, HP.
Qed.



(** With that callback a reap cycle is two rounds of removals. *)
Lemma reap_removeEach order sort now idx :
  (reap order sort removeEach now idx).1
  = removeEach (reap_evicted order sort removeEach now idx) true
      (removeEach (reap_expired order now idx) true idx).
Proof.
  assert (Hb : ∀ keys i, (bulk_remove removeEach keys i).1
                         = removeEach keys true i).
  { intros [|k keys] i; done. }
  unfold reap, reap_evicted, reap_expired, after_expiry, reap_remainders.
  destruct (partition_entries now (order (entries idx)).*2)
    as [removals remainders]. simpl.
  rewrite <-!Hb.
  destruct (bulk_remove removeEach removals idx) as [idx1 calls1]. simpl.
  by destruct (bulk_remove removeEach
                 (eviction_removals sort idx1 remainders) idx1).
Qed.

Lemma do_call_keeps (P : Index → Prop) order sort c idx idx' :
  (∀ now obj i i', P i → UpdateObject now obj i = Ok i' → P i') →
  (∀ now key i, P i → P (UpdateObjectAccessTime now key i)) →
  (∀ key noLock i, P i → P (RemoveObject key noLock i)) →
  P idx → do_call order sort c idx = Ok idx' → P idx'.
Proof.
  intros Hup Htouch Hrm Hidx Hcall.
  destruct c as [now obj|now key|key noLock|now]; simpl in Hcall.
  - eauto.
  - simplify_eq. eauto.
  - simplify_eq. eauto.
  - simplify_eq. rewrite reap_removeEach.
    apply removeEach_keeps; [by auto|]. apply removeEach_keeps; by auto.
Qed.


(** A call on an index whose map exists returns, and the map still
    exists. *)
Lemma do_call_Some order sort c idx m :
  Objects idx = Some m →
  ∃ idx' m', do_call order sort c idx = Ok idx' ∧ Objects idx' = Some m'.
Proof.
  intros Hm. destruct c as [now obj|now key|key noLock|now]; simpl.
  - by apply (apply_op_Some (OpUpdate now obj) idx m).
  - unfold UpdateObjectAccessTime.
    destruct (entries idx !! key); simpl; eauto.
  - by apply (apply_op_Some (OpRemove key noLock) idx m).
  - eexists _, (entries (reap order sort removeEach now idx).1).
    split; [done|]. rewrite reap_removeEach.
    apply (removeEach_keeps (fun i => Objects i = Some (entries i))).
    + intros k i Hi. unfold RemoveObject.
      destruct (entries i !! k); [|done]. simpl. rewrite Hi. done.
    + apply (removeEach_keeps (fun i => Objects i = Some (entries i))).
      * intros k i Hi. unfold RemoveObject.
        destruct (entries i !! k); [|done]. simpl. rewrite Hi. done.
      * unfold entries. by rewrite Hm.
Qed.

Lemma do_calls_keep (P : Index → Prop) order sort cs : ∀ idx idx',
  (∀ now obj i i', P i → UpdateObject now obj i = Ok i' → P i') →
  (∀ now key i, P i → P (UpdateObjectAccessTime now key i)) →
  (∀ key noLock i, P i → P (RemoveObject key noLock i)) →
  P idx → do_calls order sort cs idx = Ok idx' → P idx'.
Proof.
  induction cs as [|c cs IH]; intros idx idx' Hup Htouch Hrm Hidx Hcalls;
    simpl in Hcalls.
  - by simplify_eq.
  - destruct (do_call order sort c idx) as [idx1|] eqn:Hc; [|done].
    apply (IH idx1); try done. by eapply do_call_keeps.
Qed.

Lemma do_calls_Some order sort cs : ∀ idx m,
  Objects idx = Some m →
  ∃ idx' m', do_calls order sort cs idx = Ok idx' ∧ Objects idx' = Some m'.
Proof.
  induction cs as [|c cs IH]; intros idx m Hm; simpl; [eauto|].
  destruct (do_call_Some order sort c idx m Hm) as (idx1 & m1 & -> & Hm1).
  eauto.
Qed.

End IndexOperations.

(** ** Sequences of calls on an index that starts empty *)
Section IndexSequences.


Lemma NewIndex_empty_invariants (U : Unmarshaler) name cfg :
  count_ok (NewIndex U name [] cfg)
  ∧ stored_ok (NewIndex U name [] cfg)
  ∧ size_ok (NewIndex U name [] cfg).
Proof.
  split; [done|]. split; [|done].
  intros k o Hko. unfold NewIndex, entries in Hko. simpl in Hko.
  by rewrite lookup_empty in Hko.
Qed.

(** X1: From an index made without persisted bytes, no sequence of writes,
    touches, removals and reap cycles panics, and [ObjectCount] is the
    number of entries after each of them. *)
Theorem calls_keep_count (order : RangeOrder) (sort : SortFunc)
    (cs : list IndexCall) (U : Unmarshaler) (name : string)
    (cfg : CacheIndexConfig) :
  ∃ idx, do_calls order sort cs (NewIndex U name [] cfg) = Ok idx
    ∧ Objects idx ≠ None
    ∧ ObjectCount idx = Int64.wrap (Z.of_nat (size (entries idx))).
Proof.
  destruct (do_calls_Some order sort cs (NewIndex U name [] cfg) ∅)
    as (idx & m & Hcalls & Hm); [done|].
  exists idx. split; [done|]. split; [by rewrite Hm|].
  apply (do_calls_keep count_ok order sort cs (NewIndex U name [] cfg) idx);
    try done.
  - intros now obj i i' Hi Hup.
    by apply (apply_op_count_ok (OpUpdate now obj) i i').
  - intros. by apply UpdateObjectAccessTime_count_ok.
  - intros. by apply RemoveObject_count_ok.
Qed.

(** X2: From an index made without persisted bytes, after any sequence
    of writes, touches, removals and reap cycles every entry sits under
    its own key, the key is not empty, the payload is not kept and the
    size is not negative. *)
Theorem calls_keep_entries_clean (order : RangeOrder) (sort : SortFunc)
    (cs : list IndexCall) (U : Unmarshaler) (name : string)
    (cfg : CacheIndexConfig) :
  ∃ idx, do_calls order sort cs (NewIndex U name [] cfg) = Ok idx
    ∧ stored_ok idx.
Proof.
  destruct (do_calls_Some order sort cs (NewIndex U name [] cfg) ∅)
    as (idx & m & Hcalls & Hm); [done|].
  exists idx. split; [done|].
  apply (do_calls_keep stored_ok order sort cs (NewIndex U name [] cfg) idx);
    try done.
  - apply UpdateObject_stored_ok.
  - intros. by apply UpdateObjectAccessTime_stored_ok.
  - intros. by apply RemoveObject_stored_ok.
Qed.

Lemma same_size_calls_size_ok order sort cs : ∀ idx idx',
  size_ok idx → same_size_writes order sort cs idx →
  do_calls order sort cs idx = Ok idx' → size_ok idx'.
Proof.
  induction cs as [|c cs IH]; intros idx idx' Hs Hw Hcalls; simpl in *.
  - by simplify_eq.
  - destruct Hw as [Hc Hw].
    destruct (do_call order sort c idx) as [idx1|] eqn:Hcall; [|done].
    apply (IH idx1); [|done..].
    destruct c as [now obj|now key|key noLock|now]; simpl in Hcall.
    + by eapply UpdateObject_size_ok.
    + simplify_eq. by apply UpdateObjectAccessTime_size_ok.
    + simplify_eq. by apply RemoveObject_size_ok.
    + simplify_eq. rewrite reap_removeEach.
      apply removeEach_keeps; [intros; by apply RemoveObject_size_ok|].
      apply removeEach_keeps; [intros; by apply RemoveObject_size_ok|done].
Qed.

(** X3: [CacheSize] is the sum of the stored sizes as long as every write is
    to a new key or carries a payload as long as the one it replaces. *)
Theorem same_size_writes_keep_CacheSize (order : RangeOrder)
    (sort : SortFunc) (cs : list IndexCall) (U : Unmarshaler)
    (name : string) (cfg : CacheIndexConfig) (idx : Index) :
  same_size_writes order sort cs (NewIndex U name [] cfg) →
  do_calls order sort cs (NewIndex U name [] cfg) = Ok idx →
  CacheSize idx = Int64.wrap (total_size (entries idx)).
Proof.
  intros Hw Hcalls.
  apply (same_size_calls_size_ok order sort cs (NewIndex U name [] cfg));
    [apply NewIndex_empty_invariants|done..].
Qed.

Lemma same_size_writes_keep_CacheSize_witness :
  CacheSize mixed_index = Int64.wrap (total_size (entries mixed_index)).
Proof.
  apply (same_size_writes_keep_CacheSize listOrder atimeSort mixed_calls
           Examples.decode "cache" zeroConfig mixed_index).
  - vm_compute. repeat split.
  - vm_compute. reflexivity.
Defined.

End IndexSequences.

(** ** More on the reap cycle *)
Section ReapMore.

Implicit Types (o : Object) (l rest : list Object) (idx : Index).

Lemma objects_of_lookup idx o :
  o ∈ objects_of idx ↔ ∃ k, entries idx !! k = Some o.
Proof.
  unfold objects_of. rewrite list_elem_of_fmap. split.
  - intros ([k o'] & -> & Hin). exists k. by apply elem_of_map_to_list.
  - intros [k Hk]. exists (k, o). split; [done|].
    by apply elem_of_map_to_list.
Qed.

Lemma keyed_keys idx :
  keyed idx → Key <$> objects_of idx = (map_to_list (entries idx)).*1.
Proof.
  intros Hkeyed. unfold objects_of. rewrite <-list_fmap_compose.
  apply Forall_fmap_ext_1, Forall_forall. intros [k o] Hin. simpl.
  apply Hkeyed. by apply elem_of_map_to_list.
Qed.

Lemma keyed_NoDup idx : keyed idx → NoDup (Key <$> objects_of idx).
Proof.
  intros Hkeyed. rewrite keyed_keys by done. apply NoDup_fst_map_to_list.
Qed.

(** In a keyed index an entry is found under its [Key]. *)
Lemma keyed_lookup idx o :
  keyed idx → o ∈ objects_of idx → entries idx !! Key o = Some o.
Proof.
  intros Hkeyed [k Hk]%objects_of_lookup.
  by rewrite (Hkeyed k o Hk).
Qed.

(** Whatever the eviction block selects is a prefix of the sorted
    remainders. *)
Lemma eviction_removals_take sort idx l :
  ∃ n : nat, eviction_removals sort idx l = Key <$> take n (sort l).
Proof.
  unfold eviction_removals.
  destruct (over_limit idx l); [|by exists 0%nat].
  destruct (evictionType idx) as [[]|]; [| |by exists 0%nat].
  - destruct (select_bytes_sub (bytesNeeded idx) (sort l) 0 []) as [n ->].
    by exists n.
  - destruct (select_objects_prefix (objectsNeeded idx) (sort l) 0 [])
      as [n ->].
    by exists n.
Qed.

(** X7: Eviction is in the order of last access: an entry that is evicted
    was last accessed no later than any remainder that is kept. *)
Theorem eviction_is_least_recently_accessed (order : RangeOrder)
    (sort : SortFunc) (f : BulkRemoveFunc) (now : Time) (idx : Index) :
  sort_ok sort →
  ∃ n : nat,
    let sorted := sort (reap_remainders order now idx) in
    reap_evicted order sort f now idx = Key <$> take n sorted
    ∧ sorted ≡ₚ reap_remainders order now idx
    ∧ ∀ a b, a ∈ take n sorted → b ∈ drop n sorted →
        LastAccess a ≤ LastAccess b.
Proof.
  intros Hs. unfold reap_evicted.
  destruct (eviction_removals_take sort (after_expiry order f now idx)
              (reap_remainders order now idx)) as [n Hn].
  exists n. simpl. split; [done|].
  destruct (Hs (reap_remainders order now idx)) as [Hperm Hsorted].
  split; [done|]. intros a b Ha Hb.
  rewrite <-(take_drop n (sort (reap_remainders order now idx))) in Hsorted.
  apply StronglySorted_app in Hsorted as (Hle & _ & _).
  by apply atime_le_LastAccess, Hle.
Qed.

Lemma eviction_is_least_recently_accessed_witness :
  ∃ n : nat,
    let sorted := atimeSort (reap_remainders listOrder 500 Examples.lru_index) in
    reap_evicted listOrder atimeSort removeEach 500 Examples.lru_index
      = Key <$> take n sorted
    ∧ sorted ≡ₚ reap_remainders listOrder 500 Examples.lru_index
    ∧ ∀ a b, a ∈ take n sorted → b ∈ drop n sorted →
        LastAccess a ≤ LastAccess b.
Proof.
  apply (eviction_is_least_recently_accessed listOrder atimeSort removeEach
           500 Examples.lru_index).
  apply atimeSort_ok.
Defined.






Lemma reap_expired_elem order now idx k :
  range_ok order →
  k ∈ reap_expired order now idx ↔
  ∃ o, o ∈ objects_of idx ∧ expired now o ∧ Key o = k.
Proof.
  intros Ho. rewrite (reap_expired_perm order now idx Ho), list_elem_of_fmap.
  split.
  - intros (o & -> & [Hex Hin]%list_elem_of_filter). by exists o.
  - intros (o & Hin & Hex & <-). exists o. split; [done|].
    by apply list_elem_of_filter.
Qed.

Lemma reap_remainders_elem order now idx o :
  range_ok order →
  o ∈ reap_remainders order now idx ↔ live now o ∧ o ∈ objects_of idx.
Proof.
  intros Ho. rewrite (reap_remainders_perm order now idx Ho).
  apply list_elem_of_filter.
Qed.

(** X9: When nothing has expired and no positive limit is exceeded, a reap
    cycle leaves the index as it is and does not call the callback. *)
Theorem reap_quiet (order : RangeOrder) (sort : SortFunc)
    (f : BulkRemoveFunc) (now : Time) (idx : Index) :
  range_ok order →
  (∀ k o, entries idx !! k = Some o →
     Key o = IndexKey ∨ now ≤ Expiration o) →
  ¬ (0 < MaxSizeBytes (config idx) ∧ MaxSizeBytes (config idx) < CacheSize idx) →
  ¬ (0 < MaxSizeObjects (config idx)
     ∧ MaxSizeObjects (config idx) < ObjectCount idx) →
  reap order sort f now idx = (idx, []).
Proof.
  intros Ho Hfresh Hbytes Hobjects.
  assert (Hexp : reap_expired order now idx = []).
  { apply elem_of_nil_inv. intros k Hk.
    apply (reap_expired_elem order now idx k Ho) in Hk
      as (o & [k' Hk']%objects_of_lookup & [Hne Hlt] & _).
    destruct (Hfresh k' o Hk'); [done|lia]. }
  unfold reap. unfold reap_expired in Hexp.
  destruct (partition_entries now (order (entries idx)).*2)
    as [removals remainders]. simpl in Hexp. subst removals. simpl.
  assert (eviction_removals sort idx remainders = []) as ->; [|done].
  unfold eviction_removals, over_limit.
  destruct (Z.ltb_spec 0 (MaxSizeBytes (config idx)));
    destruct (Z.ltb_spec (MaxSizeBytes (config idx)) (CacheSize idx));
    destruct (Z.ltb_spec 0 (MaxSizeObjects (config idx)));
    destruct (Z.ltb_spec (MaxSizeObjects (config idx)) (ObjectCount idx));
    simpl; try done; tauto.
Qed.

Lemma reap_quiet_witness :
  reap listOrder atimeSort removeEach 500 mixed_index = (mixed_index, []).
Proof.
  apply (reap_quiet listOrder atimeSort removeEach 500 mixed_index).
  - by intros m.
  - intros k o Hko. apply elem_of_map_to_list in Hko.
    vm_compute in Hko.
    repeat (apply elem_of_cons in Hko as [Hko|Hko];
            [inversion Hko; subst; right; by vm_compute|]).
    by apply elem_of_nil in Hko.
  - vm_compute. intros [? ?]. done.
  - vm_compute. intros [? ?]. done.
Defined.



Lemma keyed_intro idx :
  Forall (fun kv : string * Object => Key kv.2 = kv.1)
         (map_to_list (entries idx)) →
  keyed idx.
Proof.
  intros Hall k o Hko. rewrite Forall_forall in Hall.
  apply (Hall (k, o)). by apply elem_of_map_to_list.
Qed.


(** X11: The keys of a keyed index that the cycle hands to the callback are
    all different: no key is asked to be removed twice. *)
Theorem reap_keys_distinct (order : RangeOrder) (sort : SortFunc)
    (f : BulkRemoveFunc) (now : Time) (idx : Index) :
  range_ok order → sort_ok sort → keyed idx →
  NoDup (reap_expired order now idx ++ reap_evicted order sort f now idx).
Proof.
  intros Ho Hs Hkeyed.
  pose proof (keyed_NoDup idx Hkeyed) as Hnodup.
  destruct (Hs (reap_remainders order now idx)) as [Hperm _].
  apply NoDup_app. split; [|split].
  - rewrite (reap_expired_perm order now idx Ho).
    eapply sublist_NoDup; [exact Hnodup|].
    apply fmap_sublist, sublist_filter.
  - intros k Hexp Hev.
    apply (reap_expired_elem order now idx k Ho) in Hexp
      as (o1 & Hin1 & [_ Hlt] & Hk1).
    apply (eviction_removals_sub sort _ _ _ (fun l => proj1 (Hs l))) in Hev
      as (o2 & Hin2 & Hk2).
    apply (reap_remainders_elem order now idx o2 Ho) in Hin2
      as [[_ Hge] Hin2].
    apply (keyed_lookup idx o1 Hkeyed) in Hin1.
    apply (keyed_lookup idx o2 Hkeyed) in Hin2.
    rewrite Hk1 in Hin1. rewrite Hk2 in Hin2. by simplify_eq.
  - unfold reap_evicted.
    destruct (eviction_removals_take sort (after_expiry order f now idx)
                (reap_remainders order now idx)) as [n ->].
    assert (NoDup (Key <$> sort (reap_remainders order now idx))) as Hsorted.
    { rewrite Hperm, (reap_remainders_perm order now idx Ho).
      eapply sublist_NoDup; [exact Hnodup|].
      apply fmap_sublist, sublist_filter. }
    eapply sublist_NoDup; [exact Hsorted|].
    apply fmap_sublist, sublist_take.
Qed.


Lemma reap_keys_distinct_witness :
  NoDup (reap_expired listOrder 500 Examples.lru_index
         ++ reap_evicted listOrder atimeSort removeEach 500 Examples.lru_index).
Proof.
  apply (reap_keys_distinct listOrder atimeSort removeEach 500
           Examples.lru_index).
  - by intros m.
  - apply atimeSort_ok.
  - apply keyed_intro. apply (bool_decide_unpack _). by vm_compute.
Defined.







End ReapMore.

(** ** The sort interface of [obectsAtime] *)
Section SortInterface.

Implicit Types (o : list Object) (a b c : Object).

Lemma swap_head_perm (x b : Object) : ∀ o (j : nat),
  o !! j = Some b → b :: <[j := x]> o ≡ₚ x :: o.
Proof.
  induction o as [|y o IH]; intros j Hj; [done|].
  destruct j as [|j]; simpl in *.
  - simplify_eq. apply Permutation_swap.
  - rewrite (Permutation_swap y b), (IH j Hj). apply Permutation_swap.
Qed.

Lemma Swap_perm : ∀ o (i j : nat) a b,
  o !! i = Some a → o !! j = Some b → <[j := a]> (<[i := b]> o) ≡ₚ o.
Proof.
  induction o as [|x o IH]; intros i j a b Hi Hj; [done|].
  destruct i as [|i], j as [|j]; simpl in *; simplify_eq.
  - done.
  - by apply swap_head_perm.
  - by apply swap_head_perm.
  - by rewrite (IH i j a b).
Qed.

(** X13: [Less] is a strict weak ordering, which is what [sort.Sort] asks of
    it, and [Swap] exchanges the two positions: the slice keeps its length
    and its elements, and a second [Swap] undoes the first. Both panic
    exactly when an index is out of range. *)
Theorem obectsAtime_lawful :
  (∀ a, Less a a = false)
  ∧ (∀ a b c, Less a b = true → Less b c = true → Less a c = true)
  ∧ (∀ a b c, Less a b = false → Less b a = false →
              Less b c = false → Less c b = false →
              Less a c = false ∧ Less c a = false)
  ∧ (∀ o (i j : nat),
       (i < Len o)%nat ∧ (j < Len o)%nat ↔ ∃ o', Swap i j o = Ok o')
  ∧ (∀ o o' (i j : nat), Swap i j o = Ok o' →
       o' ≡ₚ o ∧ Len o' = Len o
       ∧ o' !! i = o !! j ∧ o' !! j = o !! i
       ∧ (∀ k : nat, k ≠ i → k ≠ j → o' !! k = o !! k)
       ∧ Swap i j o' = Ok o).
Proof.
  unfold Less, Before. split_and!.
  - intros a. apply Z.ltb_irrefl.
  - intros a b c. rewrite !Z.ltb_lt. lia.
  - intros a b c. rewrite !Z.ltb_ge. lia.
  - intros o i j. unfold Swap, Len. split.
    + intros [Hi Hj].
      destruct (lookup_lt_is_Some_2 o i Hi) as [a ->].
      destruct (lookup_lt_is_Some_2 o j Hj) as [b ->]. eauto.
    + intros [o' Hswap].
      destruct (o !! i) as [a|] eqn:Hi; [|done].
      destruct (o !! j) as [b|] eqn:Hj; [|done].
      split; by eapply lookup_lt_Some.
  - intros o o' i j Hswap. unfold Swap, Len in *.
    destruct (o !! i) as [a|] eqn:Hi; [|done].
    destruct (o !! j) as [b|] eqn:Hj; [|done]. simplify_eq.
    pose proof (lookup_lt_Some _ _ _ Hi) as Hli.
    pose proof (lookup_lt_Some _ _ _ Hj) as Hlj.
    assert (Hi' : <[j := a]> (<[i := b]> o) !! i = Some b).
    { destruct (decide (i = j)) as [->|Hne].
      - rewrite list_lookup_insert_eq by (by rewrite length_insert).
        rewrite Hi in Hj. by simplify_eq.
      - rewrite list_lookup_insert_ne by done.
        by rewrite list_lookup_insert_eq. }
    assert (Hj' : <[j := a]> (<[i := b]> o) !! j = Some a).
    { by rewrite list_lookup_insert_eq by (by rewrite length_insert). }
    split_and!.
    + by apply Swap_perm.
    + by rewrite !length_insert.
    + done.
    + done.
    + intros k Hki Hkj. by rewrite !list_lookup_insert_ne.
    + rewrite Hi', Hj'. f_equal.
      apply list_eq. intros k.
      destruct (decide (k = j)) as [->|Hkj].
      { rewrite list_lookup_insert_eq by (by rewrite !length_insert). done. }
      rewrite list_lookup_insert_ne by done.
      destruct (decide (k = i)) as [->|Hki].
      { rewrite list_lookup_insert_eq by (by rewrite !length_insert). done. }
      by rewrite !list_lookup_insert_ne.
Qed.

End SortInterface.

(** ** Snapshots: the object codec, the flusher and the restart *)
Section Snapshots.

(** X14: [ObjectFromBytes(o.ToBytes())] is [o], without error, for every
    object that the layout has room for. *)
Theorem Object_snapshot_roundtrip (o : Object) :
  fits_object o →
  ObjectFromBytes Object_decode (Object_ToBytes Object_encode o) = (o, None).
Proof.
  intros Hfits. unfold ObjectFromBytes, Object_ToBytes, Object_encode,
    Object_decode. simpl.
  rewrite <-(app_nil_r (Msgp.Object_MarshalMsg o)).
  by rewrite Object_roundtrip.
Qed.

Lemma Object_snapshot_roundtrip_witness :
  ObjectFromBytes Object_decode
    (Object_ToBytes Object_encode (Examples.stored "E1" 1 30))
  = (Examples.stored "E1" 1 30, None).
Proof.
  apply (Object_snapshot_roundtrip (Examples.stored "E1" 1 30)).
  apply (bool_decide_unpack _). by vm_compute.
Defined.

(** X15: What the flusher hands to [flushFunc] restarts the index: the call is
    made under the reserved key, and [NewIndex] on its bytes gives an
    index with the same counters and the same entries, in a map that
    exists. *)
Theorem flushed_snapshot_restarts (order : RangeOrder) (idx : Index)
    (name : string) (cfg : CacheIndexConfig) :
  range_ok order → fits_index idx →
  ∃ bytes,
    flusher_turn (Msgp.Index_MarshalMsg order) idx = Some (IndexKey, bytes)
    ∧ CacheSize (NewIndex Msgp.Index_UnmarshalMsg name bytes cfg)
      = CacheSize idx
    ∧ ObjectCount (NewIndex Msgp.Index_UnmarshalMsg name bytes cfg)
      = ObjectCount idx
    ∧ Objects (NewIndex Msgp.Index_UnmarshalMsg name bytes cfg)
      = Some (entries idx).
Proof.
  intros Ho Hfits.
  pose proof (Index_roundtrip order idx zeroIndex Ho Hfits) as Hrt.
  unfold flusher_turn.
  destruct (Msgp.Index_MarshalMsg order idx) as [bytes e] eqn:Hm.
  assert (e = None) as -> by (unfold Msgp.Index_MarshalMsg in Hm; by simplify_eq).
  exists bytes. split; [done|]. simpl in Hrt.
  assert (bytes ≠ []) as Hne.
  { unfold Msgp.Index_MarshalMsg in Hm. simplify_eq. done. }
  unfold NewIndex. destruct bytes as [|b bytes]; [done|]. simpl Nat.ltb.
  cbv iota. by rewrite Hrt.
Qed.

Lemma flushed_snapshot_restarts_witness :
  ∃ bytes,
    flusher_turn (Msgp.Index_MarshalMsg listOrder) Examples.lru_index
      = Some (IndexKey, bytes)
    ∧ CacheSize (NewIndex Msgp.Index_UnmarshalMsg "cache" bytes zeroConfig)
      = CacheSize Examples.lru_index
    ∧ ObjectCount (NewIndex Msgp.Index_UnmarshalMsg "cache" bytes zeroConfig)
      = ObjectCount Examples.lru_index
    ∧ Objects (NewIndex Msgp.Index_UnmarshalMsg "cache" bytes zeroConfig)
      = Some (entries Examples.lru_index).
Proof.
  apply (flushed_snapshot_restarts listOrder Examples.lru_index "cache"
           zeroConfig).
  - by intros m.
  - apply fits_index_intro; apply (bool_decide_unpack _); by vm_compute.
Defined.

(** X16: [NewIndex] starts the reaper exactly when [ReapIntervalSecs] is
    positive, and the flusher exactly when [FlushIntervalSecs] is
    positive and a [flushFunc] is given, for intervals whose nanoseconds
    fit an [int64]. *)
Theorem NewIndex_starts_loops (U : Unmarshaler) (name : string)
    (data : list byte) (cfg : CacheIndexConfig) (hasFlushFunc : bool) :
  - 9223372036 ≤ ReapIntervalSecs cfg ≤ 9223372036 →
  - 9223372036 ≤ FlushIntervalSecs cfg ≤ 9223372036 →
  reapInterval (NewIndex U name data cfg) = ReapIntervalSecs cfg * Second
  ∧ flushInterval (NewIndex U name data cfg) = FlushIntervalSecs cfg * Second
  ∧ reaper_starts (NewIndex U name data cfg) = (0 <? ReapIntervalSecs cfg)
  ∧ flusher_starts (NewIndex U name data cfg) hasFlushFunc
    = (0 <? FlushIntervalSecs cfg) && hasFlushFunc.
Proof.
  intros Hr Hf. unfold reaper_starts, flusher_starts, NewIndex, Second. simpl.
  rewrite !(wrap_in_range (_ cfg))
    by (unfold Int64.in_range, Int64.min_signed, Int64.max_signed; lia).
  rewrite !wrap_in_range
    by (unfold Int64.in_range, Int64.min_signed, Int64.max_signed; lia).
  split; [done|]. split; [done|]. split.
  - destruct (Z.ltb_spec 0 (ReapIntervalSecs cfg));
      destruct (Z.ltb_spec 0 (ReapIntervalSecs cfg * 1000000000)); (done || lia).
  - f_equal.
    destruct (Z.ltb_spec 0 (FlushIntervalSecs cfg));
      destruct (Z.ltb_spec 0 (FlushIntervalSecs cfg * 1000000000)); (done || lia).
Qed.

Lemma NewIndex_starts_loops_witness :
  reapInterval (NewIndex Examples.decode "cache" [] (mkConfig 3 5 0 0 0 0))
    = 3 * Second
  ∧ flushInterval (NewIndex Examples.decode "cache" [] (mkConfig 3 5 0 0 0 0))
    = 5 * Second
  ∧ reaper_starts (NewIndex Examples.decode "cache" [] (mkConfig 3 5 0 0 0 0))
    = (0 <? 3)
  ∧ flusher_starts (NewIndex Examples.decode "cache" [] (mkConfig 3 5 0 0 0 0))
      true
    = (0 <? 5) && true.
Proof.
  apply (NewIndex_starts_loops Examples.decode "cache" []
           (mkConfig 3 5 0 0 0 0) true); simpl; lia.
Defined.

End Snapshots.

(** ** More on the named-lock manager *)
Section LockMore.
Import Locks.

Implicit Types (w : World) (s : State) (th : Thread) (t : nat) (l : mutex)
  (n : string).

Lemma crit_stay s s' ths t th th' :
  crit_ok (mkWorld s ths) → ths !! t = Some th →
  mapLock s' = mapLock s → in_critical (pc th') = in_critical (pc th) →
  crit_ok (mkWorld s' (<[t := th']> ths)).
Proof.
  intros [Hiff Huniq] Hth Hm Hc. simpl in *. split; simpl.
  - rewrite Hm, Hiff. split.
    + intros (t1 & th1 & Hth1 & Hc1).
      destruct (decide (t1 = t)) as [->|Hne].
      * exists t, th'. split; [|congruence].
        apply list_lookup_insert_eq. by eapply lookup_lt_Some.
      * exists t1, th1. by rewrite list_lookup_insert_ne.
    + intros (t1 & th1 & Hth1 & Hc1).
      apply lookup_update in Hth1 as [[-> ->]|[Hne Hth1]].
      * exists t, th. split; [done|congruence].
      * eauto.
  - intros t1 t2 th1 th2 Hth1 Hth2 Hc1 Hc2.
    apply lookup_update in Hth1 as [[-> ->]|[Hne1 Hth1]];
      apply lookup_update in Hth2 as [[-> ->]|[Hne2 Hth2]]; try done.
    + apply (Huniq t t2 th th2); (done || congruence).
    + apply (Huniq t1 t th1 th); (done || congruence).
    + eauto.
Qed.

Lemma crit_enter s s' ths t th th' :
  crit_ok (mkWorld s ths) → ths !! t = Some th →
  mapLock s = false → mapLock s' = true → in_critical (pc th') = true →
  crit_ok (mkWorld s' (<[t := th']> ths)).
Proof.
  intros [Hiff Huniq] Hth Hfree Hheld Hc. simpl in *.
  assert (Hnone : ∀ t1 th1, ths !! t1 = Some th1 →
                            in_critical (pc th1) = false).
  { intros t1 th1 Hth1. destruct (in_critical (pc th1)) eqn:Hc1; [|done].
    assert (mapLock s = true) by (apply Hiff; eauto). congruence. }
  split; simpl.
  - split; [|done]. intros _. exists t, th'. split; [|done].
    apply list_lookup_insert_eq. by eapply lookup_lt_Some.
  - intros t1 t2 th1 th2 Hth1 Hth2 Hc1 Hc2.
    apply lookup_update in Hth1 as [[-> ->]|[Hne1 Hth1]];
      apply lookup_update in Hth2 as [[-> ->]|[Hne2 Hth2]]; try done.
    + rewrite (Hnone t2 th2 Hth2) in Hc2. done.
    + rewrite (Hnone t1 th1 Hth1) in Hc1. done.
    + rewrite (Hnone t1 th1 Hth1) in Hc1. done.
Qed.

Lemma crit_leave s s' ths t th th' :
  crit_ok (mkWorld s ths) → ths !! t = Some th →
  in_critical (pc th) = true →
  mapLock s' = false → in_critical (pc th') = false →
  crit_ok (mkWorld s' (<[t := th']> ths)).
Proof.
  intros [Hiff Huniq] Hth Hin Hfree Hc. simpl in *.
  assert (Hnone : ∀ t1 th1, t1 ≠ t → ths !! t1 = Some th1 →
                            in_critical (pc th1) = false).
  { intros t1 th1 Hne Hth1. destruct (in_critical (pc th1)) eqn:Hc1; [|done].
    destruct Hne. by apply (Huniq t1 t th1 th). }
  assert (Hall : ∀ t1 th1, <[t := th']> ths !! t1 = Some th1 →
                           in_critical (pc th1) = false).
  { intros t1 th1 Hth1.
    apply lookup_update in Hth1 as [[-> ->]|[Hne1 Hth1]]; eauto. }
  split; simpl.
  - rewrite Hfree. split; [done|].
    intros (t1 & th1 & Hth1 & Hc1). rewrite (Hall t1 th1 Hth1) in Hc1. done.
  - intros t1 t2 th1 th2 Hth1 _ Hc1. rewrite (Hall t1 th1 Hth1) in Hc1. done.
Qed.

Lemma Release_fields n s s' :
  Release n s = Ok s' →
  mapLock s' = mapLock s ∧ next s' = next s ∧ locked s' ⊆ locked s.
Proof.
  unfold Release. destruct (locks s !! n) as [l|].
  - destruct (decide (l ∈ locked s)); [|done]. intros ?; simplify_eq.
    simpl. split; [done|]. split; [done|].
    by intros x [? _]%elem_of_difference.
  - intros ?; by simplify_eq.
Qed.

(** Every step keeps the discipline of [mapLock]. *)
Lemma step_crit w t w' : crit_ok w → step t w = Some w' → crit_ok w'.
Proof.
  intros Hcrit Hstep. destruct w as [s ths].
  unfold step in Hstep. simpl in Hstep.
  destruct (ths !! t) as [th|] eqn:Hth; [|done]. simpl in Hstep.
  destruct (step_thread s th) as [s1 th1| | |] eqn:Hst; simplify_eq.
  unfold step_thread in Hst.
  destruct (pc th) eqn:Hpc.
  - destruct (todo th) as [|[n|n] rest]; simplify_eq;
      (eapply crit_stay; [exact Hcrit|exact Hth|done|by rewrite Hpc]).
  - destruct (mapLock s) eqn:Hm; simplify_eq.
    eapply crit_enter; [exact Hcrit|exact Hth|done..].
  - destruct (locks s !! lockName) as [l|] eqn:Hreg; simplify_eq;
      (eapply crit_stay; [exact Hcrit|exact Hth|done|by rewrite Hpc]).
  - destruct (mapLock s) eqn:Hm; simplify_eq.
    eapply crit_leave; [exact Hcrit|exact Hth|by rewrite Hpc|done..].
  - destruct (decide (l ∈ locked s)); simplify_eq.
    eapply crit_stay; [exact Hcrit|exact Hth|done|by rewrite Hpc].
  - destruct (mapLock s) eqn:Hm; simplify_eq.
    eapply crit_enter; [exact Hcrit|exact Hth|done..].
  - simplify_eq.
    eapply crit_stay; [exact Hcrit|exact Hth|done|by rewrite Hpc].
  - destruct (mapLock s) eqn:Hm; simplify_eq.
    eapply crit_leave; [exact Hcrit|exact Hth|by rewrite Hpc|done..].
  - destruct (mapLock s) eqn:Hm; simplify_eq.
    eapply crit_enter; [exact Hcrit|exact Hth|done..].
  - destruct (Release lockName s) as [s'|] eqn:Hrel; simplify_eq.
    destruct (Release_fields _ _ _ Hrel) as (Hm & _ & _).
    eapply crit_stay; [exact Hcrit|exact Hth|done|by rewrite Hpc].
  - destruct (mapLock s) eqn:Hm; simplify_eq.
    eapply crit_leave; [exact Hcrit|exact Hth|by rewrite Hpc|done..].
Qed.

Lemma step_alloc w t w' : inv w → alloc_ok w → step t w = Some w' → alloc_ok w'.
Proof.
  intros Hinv Halloc Hstep. destruct w as [s ths].
  unfold step in Hstep. simpl in Hstep.
  destruct (ths !! t) as [th|] eqn:Hth; [|done]. simpl in Hstep.
  destruct (step_thread s th) as [s1 th1| | |] eqn:Hst; simplify_eq.
  unfold step_thread in Hst. unfold alloc_ok in *. simpl in *.
  destruct (pc th) eqn:Hpc.
  - by destruct (todo th) as [|[n|n] rest]; simplify_eq.
  - by destruct (mapLock s); simplify_eq.
  - destruct (locks s !! lockName) as [l|]; simplify_eq; [done|].
    simpl. intros l Hl. apply Halloc in Hl. lia.
  - by destruct (mapLock s); simplify_eq.
  - destruct (decide (l ∈ locked s)); simplify_eq. simpl.
    intros l' [->%elem_of_singleton|Hl']%elem_of_union; [|eauto].
    apply (inv_next _ Hinv lockName). eapply uses_other; [done|].
    by rewrite Hpc.
  - by destruct (mapLock s); simplify_eq.
  - by simplify_eq.
  - by destruct (mapLock s); simplify_eq.
  - by destruct (mapLock s); simplify_eq.
  - destruct (Release lockName s) as [s'|] eqn:Hrel; simplify_eq.
    destruct (Release_fields _ _ _ Hrel) as (_ & Hn & Hsub).
    intros l Hl. rewrite Hn. apply Halloc. by apply Hsub.
  - by destruct (mapLock s); simplify_eq.
Qed.

Lemma run_all sched : ∀ w w',
  inv w ∧ crit_ok w ∧ alloc_ok w → run sched w = Some w' →
  inv w' ∧ crit_ok w' ∧ alloc_ok w'.
Proof.
  induction sched as [|t sched IH]; intros w w' Hw Hrun; simpl in Hrun.
  - by simplify_eq.
  - destruct (step t w) as [w1|] eqn:Hstep; [|done]. simpl in Hrun.
    apply (IH w1); [|done]. destruct Hw as (Hinv & Hcrit & Halloc).
    split; [by eapply step_inv|]. split; [by eapply step_crit|].
    by eapply step_alloc.
Qed.

Lemma reachable_all w : reachable w → inv w ∧ crit_ok w ∧ alloc_ok w.
Proof.
  intros (progs & sched & Hrun).
  apply (run_all sched (spawn progs)); [|done].
  split; [apply spawn_inv|]. split.
  - split; simpl.
    + split; [done|]. intros (t & th & Hth & Hc).
      apply list_lookup_fmap_Some in Hth as (p & -> & _). done.
    + intros t t' th th' Hth _ Hc.
      apply list_lookup_fmap_Some in Hth as (p & -> & _). done.
  - intros l Hl. simpl in Hl. by apply not_elem_of_empty in Hl.
Qed.


(** One step is not fatal when the goroutine inside a [mapLock] section
    holds [mapLock] and every registered mutex is locked. *)
Lemma step_thread_not_fatal s th :
  (in_critical (pc th) = true → mapLock s = true) →
  (∀ n l, locks s !! n = Some l → l ∈ locked s) →
  step_thread s th ≠ Fatal.
Proof.
  intros Hheld Hlocked.
  unfold step_thread. destruct (pc th) eqn:Hpc; simpl in Hheld.
  - by destruct (todo th) as [|[?|?] ?].
  - by destruct (mapLock s).
  - by destruct (locks s !! lockName).
  - by rewrite Hheld.
  - by destruct (decide (l ∈ locked s)).
  - by destruct (mapLock s).
  - done.
  - by rewrite Hheld.
  - by destruct (mapLock s).
  - unfold Release.
    destruct (locks s !! lockName) as [l|] eqn:Hreg; [|done].
    destruct (decide (l ∈ locked s)) as [|Hnot]; [done|].
    destruct Hnot. by apply (Hlocked lockName).
  - by rewrite Hheld.
Qed.


(** X18: The registry is touched by one goroutine at a time, and a goroutine
    that holds [mapLock] can always take its next step: [mapLock] is never
    held across a wait. *)
Theorem mapLock_sections_exclusive_and_short w t th :
  reachable w → threads w !! t = Some th → in_critical (pc th) = true →
  (∀ t' th', threads w !! t' = Some th' → in_critical (pc th') = true →
     t' = t)
  ∧ ∃ w', step t w = Some w'.
Proof.
  intros Hreach Hth Hc.
  destruct (reachable_all w Hreach) as (Hinv & [Hiff Huniq] & _).
  assert (Hfatal : step_thread (shared w) th ≠ Fatal).
  { apply step_thread_not_fatal; [|apply (inv_locked _ Hinv)].
    intros _. apply Hiff. eauto. }
  split.
  { intros t' th' Hth' Hc'. by apply (Huniq t' t th' th). }
  rewrite (step_at t w th Hth).
  destruct (step_thread (shared w) th) as [s' th'| | |] eqn:Hst; [eauto| | |done].
  - apply blocked_only_on_locks in Hst
      as [(_ & n & [Hp|[Hp|[l Hp]]])|(n & l & Hp & _)];
      rewrite Hp in Hc; done.
  - unfold step_thread in Hst. destruct (pc th); try done.
    + by destruct (locks (shared w) !! lockName).
    + by destruct (mapLock (shared w)).
    + by destruct (mapLock (shared w)).
    + by destruct (Release lockName (shared w)).
    + by destruct (mapLock (shared w)).
Qed.

(** X19: In a reachable world a call of [Acquire] has to wait exactly
    when [mapLock] is held or the name is registered; with [mapLock]
    free, the registered names are the names for which it waits. *)
Theorem Acquire_waits_iff_registered w n :
  reachable w →
  (Acquire n (shared w) = None
   ↔ mapLock (shared w) = true ∨ is_Some (locks (shared w) !! n))
  ∧ (mapLock (shared w) = false →
     Acquire n (shared w) = None ↔ is_Some (locks (shared w) !! n)).
Proof.
  intros (Hinv & _ & Halloc)%reachable_all.
  assert (Hfree : mapLock (shared w) = false →
            Acquire n (shared w) = None ↔ is_Some (locks (shared w) !! n)).
  { intros Hm. unfold Acquire. rewrite Hm.
    destruct (locks (shared w) !! n) as [l|] eqn:Hreg.
    - rewrite decide_True by (by apply (inv_locked _ Hinv n)).
      split; [eauto|done].
    - simpl. rewrite decide_False.
      + split; [done|]. by intros [? ?].
      + intros Hin. apply Halloc in Hin. lia. }
  split; [|done].
  destruct (mapLock (shared w)) eqn:Hm.
  - unfold Acquire. rewrite Hm. split; [by left|done].
  - rewrite (Hfree eq_refl). split; [by right|]. by intros [?|?].
Qed.

(** X20: [Acquire] registers the mutex it returns and leaves it locked; a
    [Release] of the same name after it takes the name out of the
    registry and leaves every mutex as it was before the [Acquire]. *)
Theorem Acquire_then_Release n s l s1 :
  Acquire n s = Some (l, s1) →
  locks s1 !! n = Some l ∧ l ∈ locked s1 ∧ (l ∉ locked s)
  ∧ (∀ n', n' ≠ n → locks s1 !! n' = locks s !! n')
  ∧ ∃ s2, Release n s1 = Ok s2
      ∧ locks s2 = delete n (locks s)
      ∧ locked s2 = locked s
      ∧ mapLock s2 = mapLock s.
Proof.
  unfold Acquire. intros Hacq.
  destruct (mapLock s) eqn:Hheld; [done|]. rewrite <- Hheld.
  assert (∃ s0, locks s0 = locks s ∧ locked s0 = locked s
                ∧ mapLock s0 = mapLock s ∧ (l ∉ locked s0)
                ∧ s1 = mkState (<[n := l]> (locks s0)) (mapLock s0)
                               ({[l]} ∪ locked s0) (next s0))
    as (s0 & Hl & Hk & Hm & Hnot & ->).
  { destruct (locks s !! n) as [l0|].
    - destruct (decide (l0 ∈ locked s)); [done|]. simplify_eq.
      by exists s.
    - simpl in Hacq. destruct (decide (next s ∈ locked s)); [done|].
      simplify_eq. by eexists (mkState _ _ _ _). }
  simpl. rewrite Hl, Hk in *.
  split; [apply lookup_insert_eq|].
  split; [by apply elem_of_union_l, elem_of_singleton|].
  split; [done|].
  split; [intros n' Hne; by apply lookup_insert_ne|].
  unfold Release. simpl. rewrite lookup_insert_eq.
  rewrite decide_True by (by apply elem_of_union_l, elem_of_singleton).
  eexists. split; [done|]. simpl.
  split; [apply delete_insert_eq|]. split; [|done].
  apply set_eq. intros x.
  rewrite elem_of_difference, elem_of_union, elem_of_singleton.
  split; [tauto|]. intros Hx. split; [by right|]. by intros ->.
Qed.

End LockMore.

Section LockWitnesses.

Import Locks.


Lemma mapLock_sections_exclusive_and_short_witness :
  (∀ t' th', threads in_section !! t' = Some th' →
     in_critical (pc th') = true → t' = 0%nat)
  ∧ ∃ w', step 0 in_section = Some w'.
Proof.
  apply (mapLock_sections_exclusive_and_short in_section 0%nat
           (mkThread (AcqLookup "k") [CallRelease "k"] [])).
  - exists [[CallAcquire "k"; CallRelease "k"];
            [CallAcquire "k"; CallRelease "k"]],
           [0; 0]%nat. by vm_compute.
  - by vm_compute.
  - by vm_compute.
Defined.

Lemma Acquire_waits_iff_registered_witness :
  mapLock (shared queued) = false
  ∧ (Acquire "k" (shared queued) = None
     ↔ is_Some (locks (shared queued) !! "k")).
Proof.
  split; [by vm_compute|].
  apply (proj2 (Acquire_waits_iff_registered queued "k"
    ltac:(exists [[CallAcquire "k"; CallRelease "k"];
                  [CallAcquire "k"; CallRelease "k"]], queue_schedule;
          by vm_compute))).
  by vm_compute.
Defined.

Lemma Acquire_then_Release_witness :
  let s1 := mkState {["k" := 0%nat]} false ({[0%nat]} ∪ ∅) 1%nat in
  locks s1 !! "k" = Some 0%nat ∧ 0%nat ∈ locked s1 ∧ (0%nat ∉ locked init)
  ∧ (∀ n', n' ≠ "k" → locks s1 !! n' = locks init !! n')
  ∧ ∃ s2, Release "k" s1 = Ok s2
      ∧ locks s2 = delete "k" (locks init)
      ∧ locked s2 = locked init
      ∧ mapLock s2 = mapLock init.
Proof.
  apply (Acquire_then_Release "k" init 0%nat). by vm_compute.
Defined.

Lemma other_names_untouched_witness :
  ∃ w', step 1 two_names = Some w'
    ∧ (0%nat ∈ locked (shared w') ↔ 0%nat ∈ locked (shared two_names)).
Proof.
  eexists. split; [by vm_compute|].
  apply (other_names_untouched two_names 1%nat
           (mkThread (AcqLock "b" 1%nat) [CallRelease "b"] []) _ "a" 0%nat).
  - exists [[CallAcquire "a"; CallRelease "a"];
            [CallAcquire "b"; CallRelease "b"]],
           [0; 0; 0; 0; 0; 0; 0; 0; 1; 1; 1; 1]%nat.
    by vm_compute.
  - by vm_compute.
  - by vm_compute.
  - left. by vm_compute.
  - by vm_compute.
Defined.

End LockWitnesses.

Section OperationWitnesses.

Lemma RemoveObject_again_witness :
  (entries (Examples.fresh zeroConfig) !! "a" = None →
   RemoveObject "a" false (Examples.fresh zeroConfig)
   = Examples.fresh zeroConfig)
  ∧ RemoveObject "B" true (RemoveObject "B" false Examples.ttl_index)
    = RemoveObject "B" false Examples.ttl_index.
Proof.
  split.
  - apply (proj1 (RemoveObject_again "a" false false (Examples.fresh zeroConfig))).
  - apply (proj2 (RemoveObject_again "B" false true Examples.ttl_index)).
Defined.

Lemma UpdateObjectAccessTime_effect_witness :
  CacheSize (UpdateObjectAccessTime 7 "B" Examples.ttl_index)
    = CacheSize Examples.ttl_index
  ∧ ObjectCount (UpdateObjectAccessTime 7 "B" Examples.ttl_index)
    = ObjectCount Examples.ttl_index
  ∧ (∀ k, k ≠ "B" →
       entries (UpdateObjectAccessTime 7 "B" Examples.ttl_index) !! k
       = entries Examples.ttl_index !! k).
Proof.
  destruct (UpdateObjectAccessTime_effect 7 "B" Examples.ttl_index)
    as (Hcs & Hoc & _ & _ & Hother & _).
  by split_and!.
Defined.

Lemma obectsAtime_lawful_witness :
  Less (Examples.stored "E1" 1 30) (Examples.stored "E1" 1 30) = false
  ∧ ∃ o', Swap 0 1 Examples.lru_entries = Ok o'.
Proof.
  destruct obectsAtime_lawful as (Hirr & _ & _ & Hswap & _).
  split; [apply Hirr|]. apply Hswap. unfold Len. vm_compute. lia.
Defined.

End OperationWitnesses.

(** ** The allocation at the head of a reap cycle *)
Section ReapAllocation.

Lemma do_call_size order sort c idx idx' :
  do_call order sort c idx = Ok idx' →
  (size (entries idx') ≤ S (size (entries idx)))%nat.
Proof.
  destruct c as [now obj|now key|key noLock|now]; simpl; intros Hc.
  - destruct (decide (Key obj = "")) as [Hk|Hk].
    { rewrite UpdateObject_empty_key in Hc by done. simplify_eq. lia. }
    destruct (Objects idx) as [m|] eqn:Hm.
    2: { by rewrite UpdateObject_nil in Hc. }
    rewrite (UpdateObject_Some now obj idx m Hk Hm) in Hc. simplify_eq.
    unfold entries. simpl. rewrite Hm. simpl.
    destruct (m !! Key obj) eqn:Hlk.
    + rewrite map_size_insert_Some by eauto. lia.
    + rewrite map_size_insert_None by done. lia.
  - simplify_eq. rewrite UpdateObjectAccessTime_size. lia.
  - simplify_eq. rewrite RemoveObject_entries.
    pose proof (map_size_delete key (entries idx)) as Hd.
    destruct (entries idx !! key); simpl in Hd; unfold id in Hd; lia.
  - simplify_eq. rewrite reap_removeEach.
    assert (Hkeep : ∀ keys i,
      (size (entries i) ≤ size (entries idx))%nat →
      (size (entries (removeEach keys true i)) ≤ size (entries idx))%nat).
    { intros keys i Hi.
      apply (removeEach_keeps
               (fun i => (size (entries i) ≤ size (entries idx))%nat));
        [|done].
      intros k i0 Hi0. rewrite RemoveObject_entries.
      pose proof (map_size_delete k (entries i0)) as Hd.
      destruct (entries i0 !! k); simpl in Hd; unfold id in Hd; lia. }
    pose proof (Hkeep (reap_evicted order sort removeEach now idx)
                  (removeEach (reap_expired order now idx) true idx)
                  (Hkeep _ idx (le_n _))).
    lia.
Qed.

Lemma do_call_count_ok order sort c idx idx' :
  count_ok idx → do_call order sort c idx = Ok idx' → count_ok idx'.
Proof.
  apply (do_call_keeps count_ok).
  - intros now obj i i' Hi Hup.
    by apply (apply_op_count_ok (OpUpdate now obj) i i').
  - intros. by apply UpdateObjectAccessTime_count_ok.
  - intros. by apply RemoveObject_count_ok.
Qed.

Lemma make_remainders_Ok maxCap idx :
  count_ok idx → Z.of_nat (size (entries idx)) ≤ maxCap →
  maxCap ≤ Int64.max_signed →
  make_remainders maxCap idx = Ok tt.
Proof.
  unfold count_ok, make_remainders. intros -> Hsize Hmax.
  rewrite wrap_in_range.
  2: { unfold Int64.in_range, Int64.min_signed, Int64.max_signed in *. lia. }
  rewrite (proj2 (Z.leb_le _ _)) by lia.
  by rewrite (proj2 (Z.leb_le _ _)) by lia.
Qed.

Lemma do_calls_alloc_agree maxCap order sort cs : ∀ idx,
  count_ok idx →
  Z.of_nat (size (entries idx)) + Z.of_nat (length cs) ≤ maxCap →
  maxCap ≤ Int64.max_signed →
  do_calls_alloc maxCap order sort cs idx = do_calls order sort cs idx.
Proof.
  induction cs as [|c cs IH]; intros idx Hcount Hsize Hmax; [done|].
  simpl in Hsize. cbn [do_calls_alloc do_calls].
  assert (Hc : do_call_alloc maxCap order sort c idx
               = do_call order sort c idx).
  { destruct c; try done. unfold do_call_alloc, reap_call.
    rewrite make_remainders_Ok by (done || lia). done. }
  rewrite Hc. destruct (do_call order sort c idx) as [idx'|msg] eqn:Hcall;
    [|done].
  apply IH; [by eapply do_call_count_ok| |done].
  pose proof (do_call_size order sort c idx idx' Hcall). lia.
Qed.

(** X22: [reap] begins by making a slice with capacity [ObjectCount],
    which panics when that counter is negative or beyond the longest
    slice the runtime allocates. From an index made without persisted
    bytes this does not happen within that many calls: with the
    allocation, the calls give what they give without it. Only a
    counter read from a snapshot can be out of range. *)
Theorem reap_allocation (maxCap : Z) (order : RangeOrder) (sort : SortFunc)
    (f : BulkRemoveFunc) (cs : list IndexCall) (U : Unmarshaler)
    (name : string) (cfg : CacheIndexConfig) :
  Z.of_nat (length cs) ≤ maxCap → maxCap ≤ Int64.max_signed →
  do_calls_alloc maxCap order sort cs (NewIndex U name [] cfg)
    = do_calls order sort cs (NewIndex U name [] cfg)
  ∧ (∀ now idx,
       reap_call maxCap order sort f now idx = Ok (reap order sort f now idx)
       ↔ 0 ≤ ObjectCount idx ≤ maxCap)
  ∧ (∀ now idx, ¬ 0 ≤ ObjectCount idx ≤ maxCap →
       reap_call maxCap order sort f now idx
       = Panic "makeslice: cap out of range").
Proof.
  intros Hlen Hmax. split.
  { assert (size (entries (NewIndex U name [] cfg)) = 0%nat) as Hempty
      by done.
    apply do_calls_alloc_agree; [|rewrite Hempty; lia|done].
    apply (NewIndex_empty_invariants U name cfg). }
  assert (Hcases : ∀ idx,
    (0 ≤ ObjectCount idx ≤ maxCap ∧ make_remainders maxCap idx = Ok tt)
    ∨ (¬ 0 ≤ ObjectCount idx ≤ maxCap
       ∧ make_remainders maxCap idx = Panic "makeslice: cap out of range")).
  { intros idx. unfold make_remainders.
    destruct (Z.leb_spec 0 (ObjectCount idx));
      destruct (Z.leb_spec (ObjectCount idx) maxCap); simpl;
      [left|right..]; (split; [lia|done]). }
  split; intros now idx; unfold reap_call;
    destruct (Hcases idx) as [[Hin ->]|[Hout ->]]; try done.
Qed.

Lemma reap_allocation_witness :
  do_calls_alloc (2 ^ 45) listOrder atimeSort mixed_calls
    (NewIndex Examples.decode "cache" [] zeroConfig)
  = do_calls listOrder atimeSort mixed_calls
      (NewIndex Examples.decode "cache" [] zeroConfig)
  ∧ reap_call (2 ^ 45) listOrder atimeSort removeEach 500 negative_count
    = Panic "makeslice: cap out of range".
Proof.
  destruct (reap_allocation (2 ^ 45) listOrder atimeSort removeEach
              mixed_calls Examples.decode "cache" zeroConfig)
    as (Hcalls & _ & Hpanic).
  - by vm_compute.
  - by vm_compute.
  - split; [done|]. apply Hpanic. vm_compute. intros [H _]. by apply H.
Defined.

End ReapAllocation.
